(** * Monte Carlo Tree Search for a two-player board game

    A shallow embedding of [src/mcts_modified.py] and the properties of
    its search loop: selection by UCB1, expansion, heuristic rollout,
    backpropagation and the final robust-child choice.

    Python objects live in a heap ([list MCTSNode], a reference is an
    index), the two sources of non-determinism ([random.choice] and the
    wall clock) are oracles read through a cursor kept in the world, and
    every function of the module is a computation in the monad [M]:
    world in, either a value with the new world, a Python exception, or
    a loop that has not finished within the fuel it was given.  The
    float arithmetic of the module is a parameter of the model. *)

From Stdlib Require Import Floats.PrimFloat.
From Stdlib Require Import QArith Reals Psatz.
From stdpp Require Import base option list gmap.

(** ** Results, exceptions and the monad *)

(** The Python exceptions the module can raise. *)
Inductive exn : Set :=
  | AssertionError   (* a failed [assert] *)
  | KeyError         (* [d[k]] on a missing key *)
  | ValueError       (* [max()] of an empty sequence, [log(0)], [sqrt] of a
                        negative number, [list.remove] *)
  | IndexError       (* [choice] of an empty sequence *)
  | AttributeError   (* [None.visits] *)
  | TypeError.       (* [None] handed to the board as an action *)

Inductive result (A : Type) : Type :=
  | Ret (a : A)        (* normal return *)
  | Raise (e : exn)    (* unhandled Python exception *)
  | OutOfFuel          (* a [while] loop still running when the fuel ran out *)
  | Dangling.          (* a handle that is not in the heap: no Python run does this *)
Arguments Ret {A} a.
Arguments Raise {A} e.
Arguments OutOfFuel {A}.
Arguments Dangling {A}.

Section Monad.
Context {W : Type}.

Definition M (A : Type) : Type := W → result (A * W).

Definition ret {A} (a : A) : M A := λ w, Ret (a, w).

Definition bind {A B} (m : M A) (f : A → M B) : M B := λ w,
  match m w with
  | Ret (a, w') => f a w'
  | Raise e => Raise e
  | OutOfFuel => OutOfFuel
  | Dangling => Dangling
  end.

Definition raise {A} (e : exn) : M A := λ _, Raise e.
Definition out_of_fuel {A} : M A := λ _, OutOfFuel.
End Monad.
Arguments M : clear implicits.

Declare Scope py_scope.
Delimit Scope py_scope with py.
Notation "x <- m ;; k" := (bind m (λ x, k))
  (at level 100, m at next level, k at level 200, right associativity) : py_scope.
Notation "m ;;; k" := (bind m (λ _, k))
  (at level 100, k at level 200, right associativity) : py_scope.
Open Scope py_scope.

(** ** The board: the external game abstraction ([p2_t3.Board])

    Five pure functions over an opaque state, as the module calls them.
    Players are the integers 1 and 2; [points_values] is [None] while the
    game runs and a dict from player to score once it is over. *)
Class Board : Type := {
  State : Type;
  Action : Type;
  Action_eq_dec :: EqDecision Action;
  current_player : State → Z;
  is_ended : State → bool;
  legal_actions : State → list Action;
  next_state : State → Action → State;
  points_values : State → option (gmap Z Q);
}.

(** ** Python containers *)

Section Containers.
Context {K V : Type} `{EqDecision K}.

(** A [dict] keeps its keys in insertion order; assigning to a key that
    is present replaces the value where it stands. *)
Fixpoint dict_set (k : K) (v : V) (d : list (K * V)) : list (K * V) :=
  match d with
  | [] => [(k, v)]
  | (k', v') :: d' =>
      if decide (k' = k) then (k, v) :: d' else (k', v') :: dict_set k v d'
  end.

Definition keys (d : list (K * V)) : list K := d.*1.
Definition values (d : list (K * V)) : list V := d.*2.

(** [list.remove(x)]: drops the first occurrence, [None] when absent
    (Python raises [ValueError]). *)
Fixpoint list_remove (x : K) (l : list K) : option (list K) :=
  match l with
  | [] => None
  | y :: l' =>
      if decide (y = x) then Some l' else cons y <$> list_remove x l'
  end.

Definition is_nil {A} (l : list A) : bool :=
  match l with [] => true | _ => false end.
End Containers.

(** ** Search nodes *)

(** Modelled from the spec: class [MCTSNode] of [mcts_node.py], which is
    not among the sources.  The constructor takes [parent],
    [parent_action] and [action_list]; a new node has no children, all
    of [action_list] untried, and zero wins and visits. *)
Record MCTSNode `{Board} : Type := mkNode {
  parent : option nat;
  parent_action : option Action;
  child_nodes : list (Action * nat);
  untried_actions : list Action;
  wins : nat;
  visits : nat;
}.
Arguments mkNode {_} _ _ _ _ _ _.

Record world `{Board} : Type := World {
  heap : list MCTSNode;     (* every node ever allocated; a reference is an index *)
  rnd_pos : nat;            (* how many random draws were consumed *)
  clk_pos : nat;            (* how many times the clock was read *)
}.
Arguments World {_} _ _ _.

(** ** Floats

    The module computes with Python floats in two places, which never
    meet: [think] subtracts two readings of the clock and compares the
    difference with the budget, and [ucb] builds a score out of the
    counters of a node, which [max] compares with other scores.  The
    arithmetic of each place is an interface of the model.  What is
    proved with the interface left open holds for every arithmetic:
    for the floats of CPython (IEEE binary64, where a difference is
    rounded and two quotients that differ can give the same score) as
    for exact numbers. *)

(** The clock: [a - b] and [a < b] on readings, in seconds. *)
Class Clock : Type := {
  seconds : Type;
  sec_sub : seconds → seconds → seconds;
  sec_lt : seconds → seconds → bool;
}.

(** The scores, with the operations of [ucb]. *)
Class Scores : Type := {
  number : Type;
  inf : number;                            (* [float('inf')] *)
  of_int : nat → number;                   (* an int where a float is needed *)
  int_div : nat → nat → number;            (* [/] on two ints *)
  num_add : number → number → number;
  num_sub : number → number → number;
  num_mul : number → number → number;
  num_div : number → number → number;
  log_int : nat → number;                  (* [math.log] of a positive int *)
  num_sqrt : number → option number;       (* [math.sqrt]; [None] where it
                                              raises [ValueError] *)
  num_gt : number → number → bool;         (* [a > b] *)
}.

(** *** Binary64

    The clock of CPython: [timeit.default_timer] returns a C double,
    and [-] and [<] are those of IEEE binary64. *)
Definition binary64_clock : Clock := {|
  seconds := PrimFloat.float;
  sec_sub := PrimFloat.sub;
  sec_lt := PrimFloat.ltb;
|}.
Canonical Structure binary64_clock.

(** The scores of CPython, for counters below [2^53]: there the
    conversion of an int is exact, and [/] on two ints is the division
    of their doubles.  [math.sqrt] raises on a negative argument.
    [math.log] is the one of the C library, a parameter here. *)
Fixpoint float_of_pos (p : positive) : PrimFloat.float :=
  match p with
  | xH => 1%float
  | xO p' => PrimFloat.mul 2%float (float_of_pos p')
  | xI p' => PrimFloat.add (PrimFloat.mul 2%float (float_of_pos p')) 1%float
  end.

Definition float_of_nat (n : nat) : PrimFloat.float :=
  match N.of_nat n with
  | N0 => 0%float
  | Npos p => float_of_pos p
  end.

Definition sqrt64 (x : PrimFloat.float) : option PrimFloat.float :=
  if PrimFloat.ltb x 0%float then None else Some (PrimFloat.sqrt x).

Definition binary64_scores (log : nat → PrimFloat.float) : Scores := {|
  number := PrimFloat.float;
  inf := PrimFloat.infinity;
  of_int := float_of_nat;
  int_div a b := PrimFloat.div (float_of_nat a) (float_of_nat b);
  num_add := PrimFloat.add;
  num_sub := PrimFloat.sub;
  num_mul := PrimFloat.mul;
  num_div := PrimFloat.div;
  log_int := log;
  num_sqrt := sqrt64;
  num_gt a b := PrimFloat.ltb b a;
|}.

(** *** Exact arithmetic

    The rationals for the clock, and for the scores the reals with
    [float('inf')] kept apart: the value of a finite float idealised as
    a real number. *)
Definition Qlt_bool (a b : Q) : bool := if Qlt_le_dec a b then true else false.

#[global] Instance exact_clock : Clock := {|
  seconds := Q;
  sec_sub := Qminus;
  sec_lt := Qlt_bool;
|}.
Canonical Structure exact_clock.

Inductive score : Type :=
  | Inf
  | Fin (x : R).

#[global] Instance Rlt_decision (x y : R) : Decision (x < y)%R := Rlt_dec x y.

(** [a > b] on scores. *)
Definition score_gt (a b : score) : bool :=
  match a, b with
  | Inf, Inf => false
  | Inf, Fin _ => true
  | Fin _, Inf => false
  | Fin x, Fin y => bool_decide (y < x)%R
  end.

(** An operation of the reals on scores; nothing in [ucb] computes
    with infinity, which absorbs. *)
Definition score_lift (f : R → R → R) (a b : score) : score :=
  match a, b with
  | Fin x, Fin y => Fin (f x y)
  | _, _ => Inf
  end.

Definition score_sqrt (a : score) : option score :=
  match a with
  | Inf => Some Inf
  | Fin x => if decide (x < 0)%R then None else Some (Fin (sqrt x))
  end.

#[global] Instance exact_scores : Scores := {|
  number := score;
  inf := Inf;
  of_int n := Fin (INR n);
  int_div a b := Fin (INR a / INR b);
  num_add := score_lift Rplus;
  num_sub := score_lift Rminus;
  num_mul := score_lift Rmult;
  num_div := score_lift Rdiv;
  log_int n := Fin (ln (INR n));
  num_sqrt := score_sqrt;
  num_gt := score_gt;
|}.
Canonical Structure exact_scores.

Definition nat_gt (a b : nat) : bool := b <? a.

Definition bool_to_nat (b : bool) : nat := if b then 1 else 0.

Section MCTS.
Context `{board : Board} `{clock : Clock} `{scores : Scores}.

(** [rnd k] is the [k]-th number drawn from the random source and
    [clk k] the [k]-th reading of [timeit.default_timer], in seconds. *)
Variable rnd : nat → nat.
Variable clk : nat → seconds.

Abbreviation Py := (M world).

(** *** Heap primitives *)

Definition get_node (i : nat) : Py MCTSNode := λ w,
  match heap w !! i with
  | Some n => Ret (n, w)
  | None => Dangling
  end.

Definition update_node (i : nat) (f : MCTSNode → MCTSNode) : Py unit := λ w,
  match heap w !! i with
  | Some n => Ret (tt, World (<[i := f n]> (heap w)) (rnd_pos w) (clk_pos w))
  | None => Dangling
  end.

(** Modelled from the spec: the constructor of [MCTSNode], called as
    [MCTSNode(parent=.., parent_action=.., action_list=..)].  The new
    object is the next cell of the heap. *)
Definition new_node (p : option nat) (a : option Action)
    (action_list : list Action) : Py nat := λ w,
  Ret (length (heap w),
       World (heap w ++ [mkNode p a [] action_list 0 0]) (rnd_pos w) (clk_pos w)).

(** [random.choice(seq)] is [seq[randbelow(len(seq))]]. *)
Definition choice {A} (seq : list A) : Py A := λ w,
  match seq !! (rnd (rnd_pos w) `mod` length seq) with
  | Some x => Ret (x, World (heap w) (S (rnd_pos w)) (clk_pos w))
  | None => Raise IndexError
  end.

(** [time()] *)
Definition time : Py seconds := λ w,
  Ret (clk (clk_pos w), World (heap w) (rnd_pos w) (S (clk_pos w))).

(** [max(iterable, key=..)]: the key of each item is computed when the
    item is reached, and a later item replaces the current one only
    when its key is strictly greater. *)
Fixpoint max_loop {A K} (gt : K → K → bool) (key : A → Py K)
    (l : list A) (maxitem : A) (maxval : K) : Py A :=
  match l with
  | [] => ret maxitem
  | item :: l' =>
      val <- key item;;
      if gt val maxval then max_loop gt key l' item val
      else max_loop gt key l' maxitem maxval
  end.

Definition py_max {A K} (gt : K → K → bool) (key : A → Py K)
    (l : list A) : Py A :=
  match l with
  | [] => raise ValueError
  | item :: l' => val <- key item;; max_loop gt key l' item val
  end.

(** *** The module *)

(** [explore_faction = 2.] *)
Definition explore_faction : number := of_int 2.

Definition is_win (state : State) (identity_of_bot : Z) : Py bool :=
  let outcome := points_values state in
  match outcome with
  | None => raise AssertionError
  | Some o =>
      match o !! identity_of_bot with
      | None => raise KeyError
      | Some v => ret (Qeq_bool v 1)
      end
  end.

Definition ucb (node : nat) (is_opponent : bool) : Py number :=
  n <- get_node node;;
  if visits n =? 0 then ret inf
  else
    let win_rate := int_div (wins n) (visits n) in
    let win_rate := if is_opponent then num_sub (of_int 1) win_rate else win_rate in
    match parent n with
    | None => raise AttributeError
    | Some p =>
        pn <- get_node p;;
        if visits pn =? 0 then raise ValueError   (* log(0): math domain error *)
        else
          match num_sqrt (num_div (log_int (visits pn)) (of_int (visits n))) with
          | None => raise ValueError              (* sqrt: math domain error *)
          | Some root => ret (num_add win_rate (num_mul explore_faction root))
          end
    end.

(** The [max(...)] of [traverse_nodes]: the child of [n] the descent
    moves to, with the state the loop is at. *)
Definition best_child (n : MCTSNode) (state : State) (bot_identity : Z) : Py nat :=
  py_max num_gt
    (λ c, ucb c (negb (current_player state =? bot_identity)%Z))
    (values (child_nodes n)).

Fixpoint traverse_nodes (fuel : nat) (node : nat) (state : State)
    (bot_identity : Z) : Py (nat * State) :=
  match fuel with
  | 0 => out_of_fuel
  | S fuel' =>
      n <- get_node node;;
      if negb (is_ended state) && is_nil (untried_actions n) then
        if is_nil (child_nodes n) then ret (node, state)
        else
          node' <- best_child n state bot_identity;;
          n' <- get_node node';;
          match parent_action n' with
          | None => raise TypeError
          | Some a => traverse_nodes fuel' node' (next_state state a) bot_identity
          end
      else ret (node, state)
  end.

Definition expand_leaf (node : nat) (state : State) : Py (nat * State) :=
  n <- get_node node;;
  action <- choice (untried_actions n);;
  let next := next_state state action in
  child_node <- new_node (Some node) (Some action) (legal_actions next);;
  update_node node (λ n, mkNode (parent n) (parent_action n)
                           (dict_set action child_node (child_nodes n))
                           (untried_actions n) (wins n) (visits n));;;
  n <- get_node node;;
  match list_remove action (untried_actions n) with
  | None => raise ValueError
  | Some rest =>
      update_node node (λ n, mkNode (parent n) (parent_action n) (child_nodes n)
                               rest (wins n) (visits n));;;
      ret (child_node, next)
  end.

(** The first [for] loop of [heuristic_action_choice]: [Some action]
    when it returns from inside the loop. *)
Fixpoint winning_loop (state : State) (l : list Action) : option Action :=
  match l with
  | [] => None
  | action :: l' =>
      let next := next_state state action in
      if bool_decide (points_values next ≠ None) then Some action
      else winning_loop state l'
  end.

(** The second [for] loop. *)
Fixpoint blocking_loop (state : State) (l : list Action) : Py (option Action) :=
  match l with
  | [] => ret None
  | action :: l' =>
      let next := next_state state action in
      let opponent := (3 - current_player state)%Z in
      c <- (if bool_decide (points_values next ≠ None)
           then is_win next opponent else ret false);;
      if c then ret (Some action) else blocking_loop state l'
  end.

Definition heuristic_action_choice (state : State)
    (legal : list Action) : Py Action :=
  match winning_loop state legal with
  | Some action => ret action
  | None =>
      r <- blocking_loop state legal;;
      match r with
      | Some action => ret action
      | None => choice legal
      end
  end.

Fixpoint rollout (fuel : nat) (state : State) : Py State :=
  if is_ended state then ret state
  else
    match fuel with
    | 0 => out_of_fuel
    | S fuel' =>
        let legal := legal_actions state in
        action <- heuristic_action_choice state legal;;
        rollout fuel' (next_state state action)
    end.

Fixpoint backpropagate (fuel : nat) (node : option nat) (won : bool) : Py unit :=
  match node with
  | None => ret tt
  | Some i =>
      match fuel with
      | 0 => out_of_fuel
      | S fuel' =>
          update_node i (λ n, mkNode (parent n) (parent_action n) (child_nodes n)
                                (untried_actions n) (wins n) (visits n + 1));;;
          update_node i (λ n, mkNode (parent n) (parent_action n) (child_nodes n)
                                (untried_actions n) (wins n + bool_to_nat won)
                                (visits n));;;
          n <- get_node i;;
          backpropagate fuel' (parent n) (negb won)
      end
  end.

Definition get_best_action (root_node : nat) : Py Action :=
  n <- get_node root_node;;
  best <- py_max nat_gt (λ child, c <- get_node child.2;; ret (visits c))
           (child_nodes n);;
  ret best.1.

(** The body of the [while] loop of [think]. *)
Definition iteration (fuel : nat) (root_node : nat) (current_state : State)
    (bot_identity : Z) : Py unit :=
  let state := current_state in
  let node := root_node in
  r <- traverse_nodes fuel node state bot_identity;;
  let '(node, state) := r in
  r <- (if negb (is_ended state) then expand_leaf node state
        else ret (node, state));;
  let '(node, state) := r in
  end_state <- rollout fuel state;;
  won <- is_win end_state bot_identity;;
  backpropagate fuel (Some node) won.

(** The [while] loop of [think]; the value is the number of times the
    body ran. *)
Fixpoint search_loop (fuel : nat) (inner : nat)
    (start_time : seconds) (time_limit : seconds) (root_node : nat) (current_state : State) (bot_identity : Z) : Py nat :=
  match fuel with
  | 0 => out_of_fuel
  | S fuel' =>
      now <- time;;
      if sec_lt (sec_sub now start_time) time_limit then
        iteration inner root_node current_state bot_identity;;;
        k <- search_loop fuel' inner start_time time_limit root_node
              current_state bot_identity;;
        ret (S k)
      else ret 0
  end.

(** [think] with the number of iterations of its loop next to the
    action it returns. *)
Definition think_counted (fuel : nat) (current_state : State)
    (time_limit : seconds) : Py (Action * nat) :=
  let bot_identity := current_player current_state in
  root_node <- new_node None None (legal_actions current_state);;
  start_time <- time;;
  k <- search_loop fuel fuel start_time time_limit root_node current_state
        bot_identity;;
  best_action <- get_best_action root_node;;
  ret (best_action, k).

Definition think (fuel : nat) (current_state : State)
    (time_limit : seconds) : Py Action :=
  r <- think_counted fuel current_state time_limit;;
  ret r.1.

End MCTS.

(** * The vocabulary of the properties *)

(** What [max] needs of [>] to return the first greatest item. *)
Record weak_order {K} (gt : K → K → bool) : Prop := {
  gt_irrefl a : gt a a = false;
  gt_trans a b c : gt a b = true → gt b c = true → gt a c = true;
  gt_above a b c : gt a b = true → gt c b = false → gt a c = true;
}.

(** The same, of the keys that satisfy [P] only. *)
Definition weak_order_on {K} (gt : K → K → bool) (P : K → Prop) : Prop :=
  (∀ a, P a → gt a a = false) ∧
  (∀ a b c, P a → P b → P c → gt a b = true → gt b c = true → gt a c = true) ∧
  (∀ a b c, P a → P b → P c → gt a b = true → gt c b = false → gt a c = true).

(** The arithmetic of the scores finds a square root for [log(n) / m],
    [n] and [m] positive: [math.sqrt] in [ucb] does not raise. *)
Definition sqrt_log_defined `{Scores} : Prop :=
  ∀ n m, 1 ≤ n → 1 ≤ m → is_Some (num_sqrt (num_div (log_int n) (of_int m))).

(** The test of the loop of [think] holds at the [k] readings of the
    clock from the [pos]-th on, and fails at the next one. *)
Definition runs_for `{Clock} (clk : nat → seconds) (pos : nat)
    (start limit : seconds) (k : nat) : Prop :=
  (∀ j, j < k → sec_lt (sec_sub (clk (pos + j)) start) limit = true) ∧
  sec_lt (sec_sub (clk (pos + k)) start) limit = false.

Section Vocabulary.
Context `{board : Board}.
Variable rnd : nat → nat.

Abbreviation Py := (M world).

(** A computation that returns without touching the world. *)
Definition readonly {A} (m : Py A) : Prop :=
  ∀ w a w', m w = Ret (a, w') → w' = w.

(** The key of the [max] of [get_best_action]. *)
Definition visits_key (child : Action * nat) : Py nat :=
  c <- get_node child.2;; ret (visits c).

(** [x] is the first item of [l] whose key is greatest: strictly above
    every key before it, and not below any key after it. *)
Definition first_max {A K} (gt : K → K → bool) (key : A → Py K)
    (w : world) (l : list A) (x : A) : Prop :=
  ∃ pre post kx,
    l = pre ++ x :: post ∧ key x w = Ret (kx, w) ∧
    Forall (λ y, ∃ ky, key y w = Ret (ky, w) ∧ gt kx ky = true) pre ∧
    Forall (λ y, ∃ ky, key y w = Ret (ky, w) ∧ gt ky kx = false) post.

(** The keys [max] computes for the items of [l]. *)
Definition keys_of {A K} (key : A → Py K) (w : world) (l : list A) (k : K) : Prop :=
  ∃ y, y ∈ l ∧ key y w = Ret (k, w).

(** The action leads to a state the scoring function has a result for. *)
Definition leads_to_terminal (state : State) (a : Action) : bool :=
  bool_decide (points_values (next_state state a) ≠ None).

(** The action leads to such a state, and there the opponent of the
    player to move in [state] has score 1. *)
Definition leads_to_opponent_win (state : State) (a : Action) : bool :=
  match points_values (next_state state a) with
  | Some outcome =>
      match outcome !! (3 - current_player state)%Z with
      | Some v => Qeq_bool v 1
      | None => false
      end
  | None => false
  end.

(** The policy in the words of the specification, tier by tier: the first
    legal action to a terminal state; else the first legal action to a
    terminal state won by the opponent of the mover; else a random one. *)
Definition three_tier_policy (state : State) (legal : list Action) : M world Action :=
  match List.find (leads_to_terminal state) legal with
  | Some a => ret a
  | None =>
      match List.find (leads_to_opponent_win state) legal with
      | Some a => ret a
      | None => choice rnd legal
      end
  end.

(** The same policy without its second tier: the first legal action to
    a terminal state, else a random one. *)
Definition two_tier_policy (state : State) (legal : list Action) : M world Action :=
  match List.find (leads_to_terminal state) legal with
  | Some a => ret a
  | None => choice rnd legal
  end.

(** A child with no visits among the children of [n], in the heap of [w]. *)
Definition has_unvisited_child (w : world) (n : MCTSNode) : Prop :=
  ∃ c cn, c ∈ values (child_nodes n) ∧ heap w !! c = Some cn ∧ visits cn = 0.

(** [parent_chain h i l]: following [parent] from node [i] in heap [h]
    visits the nodes [l], [i] first, and ends at a node with no parent. *)
Inductive parent_chain (h : list MCTSNode) : nat → list nat → Prop :=
  | chain_root i n :
      h !! i = Some n → parent n = None → parent_chain h i [i]
  | chain_step i n p l :
      h !! i = Some n → parent n = Some p → parent_chain h p l →
      parent_chain h i (i :: l).

(** The credit handed to the [k]-th node of the chain. *)
Fixpoint alternate (won : bool) (k : nat) : bool :=
  match k with
  | 0 => won
  | S k' => alternate (negb won) k'
  end.

(** A node after one step of the loop of [backpropagate]. *)
Definition credited (won : bool) (n : MCTSNode) : MCTSNode :=
  mkNode (parent n) (parent_action n) (child_nodes n) (untried_actions n)
         (wins n + bool_to_nat won) (visits n + 1).

(** What of a node the statistics do not touch. *)
Definition shape (n : MCTSNode) :
    option nat * option Action * list (Action * nat) * list Action :=
  (parent n, parent_action n, child_nodes n, untried_actions n).

(** The heap after [backpropagate] along the chain [l]. *)
Definition backpropagated (l : list nat) (won : bool) (w w' : world) : Prop :=
  rnd_pos w' = rnd_pos w ∧ clk_pos w' = clk_pos w ∧
  shape <$> heap w' = shape <$> heap w ∧
  (∀ k j n, l !! k = Some j → heap w !! j = Some n →
     heap w' !! j = Some (credited (alternate won k) n)) ∧
  (∀ j, j ∉ l → heap w' !! j = heap w !! j).

(** The nodes of one call of [think] are those from its root [r] on.
    The root has no parent; every other node points to an older node
    of the tree; every entry of a [child_nodes] dict is a younger node
    that points back with the key as its [parent_action]. *)
Record wf_tree (r : nat) (h : list MCTSNode) : Prop := {
  wf_root : ∃ rn, h !! r = Some rn ∧ parent rn = None;
  wf_parent i n :
    h !! i = Some n → r < i → ∃ p, parent n = Some p ∧ r ≤ p < i;
  wf_child i n a c :
    h !! i = Some n → r ≤ i → (a, c) ∈ child_nodes n →
    ∃ cn, h !! c = Some cn ∧ i < c ∧
          parent cn = Some i ∧ parent_action cn = Some a;
  }.

(** [h'] has every node of [h], with the same way up. *)
Definition extends (h h' : list MCTSNode) : Prop :=
  ∀ i n, h !! i = Some n →
    ∃ n', h' !! i = Some n' ∧ parent n' = parent n ∧
          parent_action n' = parent_action n.

(** The state a node stands for: the root for the state [think] was
    called on, a child for the state its [parent_action] leads to. *)
Inductive node_state (r : nat) (s0 : State) (h : list MCTSNode) :
    nat → State → Prop :=
  | state_root n :
      h !! r = Some n → parent n = None → node_state r s0 h r s0
  | state_child i n p a s :
      h !! i = Some n → parent n = Some p → parent_action n = Some a →
      node_state r s0 h p s → node_state r s0 h i (next_state s a).

(** The node [n] once [expand_leaf] has made its child for [action], the
    child being the next node of heap [h], and [rest] being left to try. *)
Definition expanded_node (h : list MCTSNode) (n : MCTSNode) (action : Action)
    (rest : list Action) : MCTSNode :=
  mkNode (parent n) (parent_action n)
    (dict_set action (length h) (child_nodes n)) rest (wins n) (visits n).

(** The child [expand_leaf] makes under [node], for the state [s']. *)
Definition new_child (node : nat) (action : Action) (s' : State) : MCTSNode :=
  mkNode (Some node) (Some action) [] (legal_actions s') 0 0.

(** The heap [expand_leaf] leaves: node [node], which was [n], is
    rewritten and the child is appended. *)
Definition expanded (h : list MCTSNode) (node : nat) (n : MCTSNode)
    (action : Action) (rest : list Action) (s' : State) : list MCTSNode :=
  <[node := expanded_node h n action rest]> h ++ [new_child node action s'].

(** The visits of node [i], when it is on the heap. *)
Definition visits_at (w : world) (i : nat) : option nat := visits <$> heap w !! i.

(** Every node of the tree stands for a state, and the keys of its
    [child_nodes] followed by its [untried_actions] list the legal
    actions of that state, each once. *)
Definition partitioned (r : nat) (s0 : State) (h : list MCTSNode) : Prop :=
  ∀ i n, r ≤ i → h !! i = Some n →
    ∃ s, node_state r s0 h i s ∧
         NoDup (keys (child_nodes n) ++ untried_actions n) ∧
         keys (child_nodes n) ++ untried_actions n ≡ₚ legal_actions s.

(** [reaches s s']: [s'] is [s] after some legal actions played in turn. *)
Inductive reaches : State → State → Prop :=
  | reaches_here s : reaches s s
  | reaches_step s a s' :
      a ∈ legal_actions s → reaches (next_state s a) s' → reaches s s'.

(** The statistics [think] keeps in its tree: no node has more wins than
    visits, and every node but the root has been visited. *)
Definition stats_ok (r : nat) (h : list MCTSNode) : Prop :=
  ∀ i n, r ≤ i → h !! i = Some n →
    wins n ≤ visits n ∧ (r < i → 1 ≤ visits n).

(** Every node of the tree that has a child has been visited. *)
Definition parents_visited (r : nat) (h : list MCTSNode) : Prop :=
  ∀ i n, r ≤ i → h !! i = Some n → child_nodes n ≠ [] → 1 ≤ visits n.

(** The visits of node [c], zero when it is not on the heap. *)
Definition visits_of (h : list MCTSNode) (c : nat) : nat :=
  from_option visits 0 (h !! c).

(** The visits of the children in the dict of [n], added up. *)
Definition children_visits (h : list MCTSNode) (n : MCTSNode) : nat :=
  sum_list_with (visits_of h) (values (child_nodes n)).

(** The nodes of the tree that point to the root are in its dict. *)
Definition root_children_listed (r : nat) (h : list MCTSNode) : Prop :=
  ∀ i n rn, r < i → h !! i = Some n → parent n = Some r → h !! r = Some rn →
    i ∈ values (child_nodes rn).

End Vocabulary.

(** * Inputs to run the module on *)

(** A clock that advances by a tenth of a second per reading, and a
    random source that counts 0, 1, 2, ... *)
Definition tenths (k : nat) : Q := (Z.of_nat k # 10)%Q.
Definition counting (k : nat) : nat := k.

(** A random source that always draws 1. *)
Definition always_one (k : nat) : nat := 1.

(** Clocks in binary64.  The first adds the double nearest to 0.1 at
    each reading: 0, 0.1, 0.2, 0.30000000000000004, ...  The second
    reads [2^-70] when [think] starts and 1.0 ever after: the
    difference of the first two readings rounds up to 1.0. *)
Fixpoint tenths64 (k : nat) : PrimFloat.float :=
  match k with
  | 0 => 0%float
  | S k' => PrimFloat.add (tenths64 k') 0x1.999999999999ap-4%float
  end.

Definition late_start (k : nat) : PrimFloat.float :=
  match k with
  | 0 => 0x1p-70%float
  | S _ => 1%float
  end.

(** ** A board to run the module on: 3x3 tic-tac-toe

    Cells are numbered 0..8 row by row; an action is the number of an
    empty cell.  A finished game is worth 1 to the winner and 0 to the
    loser, or 1/2 to each player when the grid is full with no line. *)
Module TicTacToe.

Record position : Type := Position {
  cells : list (option Z);
  to_move : Z;
}.

Definition initial : position := Position (replicate 9 None) 1.

Definition lines : list (nat * nat * nat) :=
  [(0, 1, 2); (3, 4, 5); (6, 7, 8);
   (0, 3, 6); (1, 4, 7); (2, 5, 8);
   (0, 4, 8); (2, 4, 6)].

Definition owns (p : Z) (c : list (option Z)) (i : nat) : bool :=
  match c !! i with
  | Some (Some q) => (p =? q)%Z
  | _ => false
  end.

Definition has_line (p : Z) (c : list (option Z)) : bool :=
  existsb (λ l, let '(i, j, k) := l in owns p c i && owns p c j && owns p c k) lines.

Definition full (c : list (option Z)) : bool :=
  forallb (λ x, match x with Some _ => true | None => false end) c.

Definition empty_cells (c : list (option Z)) : list nat :=
  filter (λ i, c !! i = Some None) (seq 0 (length c)).

Definition play (s : position) (a : nat) : position :=
  Position (<[a := Some (to_move s)]> (cells s)) (3 - to_move s).

Definition score_of (s : position) : option (gmap Z Q) :=
  if has_line 1 (cells s) then Some {[ 1%Z := 1%Q; 2%Z := 0%Q ]}
  else if has_line 2 (cells s) then Some {[ 1%Z := 0%Q; 2%Z := 1%Q ]}
  else if full (cells s) then Some {[ 1%Z := (1 # 2)%Q; 2%Z := (1 # 2)%Q ]}
  else None.

Definition over (s : position) : bool :=
  has_line 1 (cells s) || has_line 2 (cells s) || full (cells s).

#[export] Instance board : Board := {|
  State := position;
  Action := nat;
  current_player := to_move;
  is_ended := over;
  legal_actions s := empty_cells (cells s);
  next_state := play;
  points_values := score_of;
|}.

(** A position from a list of moves played in turn from [initial]. *)
Definition after (moves : list nat) : position := foldl play initial moves.

(** The world before the first call: an empty heap, nothing drawn or read. *)
Definition fresh : world := World [] 0 0.

(** X holds cells 0 and 1, O holds 3 and 4, X is to move: cell 2 wins. *)
Definition x_to_win : position := after [0; 3; 1; 4].

(** The heap after three turns of the loop from [x_to_win]. *)
Definition three_turns : world :=
  World [mkNode None None [(2, 1); (6, 2); (8, 3)] [5; 7] 2 3;
         mkNode (Some 0) (Some 2) [] [5; 6; 7; 8] 1 1;
         mkNode (Some 0) (Some 6) [] [2; 5; 7; 8] 0 1;
         mkNode (Some 0) (Some 8) [] [2; 5; 6; 7] 0 1] 3 5.

(** A grid filled without a line: a draw. *)
Definition drawn : position := after [0; 1; 2; 4; 3; 5; 7; 6; 8].

(** Seven cells filled, no line, O to move, cells 7 and 8 empty. *)
Definition two_left : position := after [0; 2; 1; 3; 5; 4; 6].

(** A root for [two_left] with both cells expanded, the entries of its
    dict in the given order, and a child reached by playing cell [a],
    with cell [other] left to try. *)
Definition root_of (entries : list (nat * nat)) (wins visits : nat) : MCTSNode :=
  mkNode None None entries [] wins visits.

Definition leaf (a other visits : nat) : MCTSNode :=
  mkNode (Some 0) (Some a) [] [other] 0 visits.

(** The heap after two turns from [two_left] when cell 7 is expanded
    first, and when cell 8 is: the same statistics, the entries of the
    dict of the root in the two orders. *)
Definition seven_first : world :=
  World [root_of [(7, 1); (8, 2)] 2 2; leaf 7 8 1; leaf 8 7 1] 2 4.

Definition eight_first : world :=
  World [root_of [(8, 1); (7, 2)] 2 2; leaf 8 7 1; leaf 7 8 1] 2 4.

(** A root whose child for cell 8 has not been visited. *)
Definition one_unvisited : world :=
  World [root_of [(7, 1); (8, 2)] 1 1; leaf 7 8 1; leaf 8 7 0] 0 0.

(** A chain root, child, grandchild on the heap. *)
Definition chain_root : MCTSNode := mkNode None None [(4, 1)] [] 2 5.

Definition chain_child : MCTSNode := mkNode (Some 0) (Some 4) [(0, 2)] [] 1 3.

Definition chain_grandchild : MCTSNode := mkNode (Some 1) (Some 0) [] [1; 2] 0 1.

Definition chain3 : world :=
  World [chain_root; chain_child; chain_grandchild] 0 0.

(** A root visited 3800 times whose children have 838 wins in 1656
    visits and 1076 wins in 2066 visits: as real numbers the second
    score is the greater, by less than [4e-17]; as doubles the two are
    equal.  [log_3800] is the double [math.log(3800)] returns. *)
Definition rounded_tie : world :=
  World [mkNode None None [(7, 1); (8, 2)] [] 1900 3800;
         mkNode (Some 0) (Some 7) [] [8] 838 1656;
         mkNode (Some 0) (Some 8) [] [7] 1076 2066] 0 0.

Definition log_3800 : PrimFloat.float := 0x1.07c4a8f4b7af5p+3%float.

(** X has played cell 2 from [x_to_win] and holds the top row. *)
Definition x_won : position := after [0; 3; 1; 4; 2].

(** The number of empty cells of a position. *)
Definition empties (s : position) : nat :=
  length (filter (λ x, x = None) (cells s)).

End TicTacToe.

(** ** A board that lists an action twice *)
Module Stutter.
(** One move ends the game; the only action, 0, is listed twice. *)
#[export] Instance board : Board := {|
  State := bool;
  Action := nat;
  current_player _ := 1%Z;
  is_ended s := s;
  legal_actions s := if s then [] else [0; 0];
  next_state _ _ := true;
  points_values s := if s then Some {[ 1%Z := 1%Q; 2%Z := 0%Q ]} else None;
|}.
End Stutter.

(** ** A board with a state that is stuck *)
Module Deadlock.
(** The game is never over and no action is legal. *)
#[export] Instance board : Board := {|
  State := unit;
  Action := nat;
  current_player _ := 1%Z;
  is_ended _ := false;
  legal_actions _ := [];
  next_state s _ := s;
  points_values _ := None;
|}.
End Deadlock.

(** * Properties *)

(** ** The monad *)

Section MonadFacts.
Context {W A B : Type}.
Implicit Types (m : M W A) (f : A → M W B).

Lemma bind_ret_inv m f w r :
  bind m f w = Ret r → ∃ a w1, m w = Ret (a, w1) ∧ f a w1 = Ret r.
Proof.
  unfold bind. destruct (m w) as [[a w1]| | |]; [eauto | done..].
Qed.

Lemma bind_ret_l m f w a w1 : m w = Ret (a, w1) → bind m f w = f a w1.
Proof. unfold bind. by intros ->. Qed.

End MonadFacts.

(** Strips one [bind] off a hypothesis [bind m f w = Ret r]. *)
Ltac bind_inv H x w Hx :=
  apply bind_ret_inv in H as (x & w & Hx & H).

(** ** Orders used by [max] *)

Lemma nat_gt_order : weak_order nat_gt.
Proof.
  split; unfold nat_gt; intros; rewrite ?Nat.ltb_lt, ?Nat.ltb_ge in *; lia.
Qed.

Lemma score_gt_order : weak_order score_gt.
Proof.
  split.
  - intros [|x]; simpl; [done|]. rewrite bool_decide_eq_false. lra.
  - intros [|x] [|y] [|z]; simpl; try done.
    rewrite !bool_decide_eq_true. lra.
  - intros [|x] [|y] [|z]; simpl; try done.
    rewrite !bool_decide_eq_true, bool_decide_eq_false. lra.
Qed.

Lemma score_Inf_top a : score_gt Inf a = false → a = Inf.
Proof. by destruct a. Qed.

Lemma weak_order_restrict {K} (gt : K → K → bool) (P : K → Prop) :
  weak_order gt → weak_order_on gt P.
Proof.
  intros [Hirr Htrans Habove]. split; [|split].
  - intros a _. apply Hirr.
  - intros a b c _ _ _. apply Htrans.
  - intros a b c _ _ _. apply Habove.
Qed.

(** ** Reading the heap, and [max] *)

Section Selection.
Context `{board : Board} `{scores : Scores}.
Variable rnd : nat → nat.

Abbreviation Py := (M world).

Lemma get_node_inv i w n w' :
  get_node i w = Ret (n, w') → w' = w ∧ heap w !! i = Some n.
Proof.
  unfold get_node. destruct (heap w !! i); [|done]. by intros [= -> ->].
Qed.

Lemma get_node_lookup i w n : heap w !! i = Some n → get_node i w = Ret (n, w).
Proof. unfold get_node. by intros ->. Qed.

Lemma ret_inv {A} (a b : A) (w w' : world) : ret a w = Ret (b, w') → b = a ∧ w' = w.
Proof. by intros [= -> ->]. Qed.

Lemma ucb_unvisited c b w cn :
  heap w !! c = Some cn → visits cn = 0 → ucb c b w = Ret (inf, w).
Proof.
  intros Hc Hv. unfold ucb. rewrite (bind_ret_l _ _ _ _ _ (get_node_lookup _ _ _ Hc)).
  by rewrite Hv.
Qed.

Lemma ucb_readonly c b : readonly (ucb c b).
Proof.
  unfold ucb. intros w s w' H. bind_inv H cn w1 Hc.
  apply get_node_inv in Hc as [-> Hc].
  destruct (visits cn =? 0); [by apply ret_inv in H as [_ ->]|].
  destruct (parent cn) as [p|]; [|done].
  bind_inv H pn w1 Hp. apply get_node_inv in Hp as [-> Hp].
  destruct (visits pn =? 0); [done|].
  destruct (num_sqrt _); [|done]. by apply ret_inv in H as [_ ->].
Qed.

Lemma visits_key_inv child w k w' :
  visits_key child w = Ret (k, w') →
  w' = w ∧ ∃ cn, heap w !! child.2 = Some cn ∧ k = visits cn.
Proof.
  unfold visits_key. intros H. bind_inv H cn w1 Hc.
  apply get_node_inv in Hc as [-> Hc]. apply ret_inv in H as [-> ->]. eauto.
Qed.

Lemma visits_key_readonly child : readonly (visits_key child).
Proof. intros w s w' H. by apply visits_key_inv in H as [-> _]. Qed.

(** What [max] returns is one of the items, whatever [>] is. *)
Lemma max_loop_elem {A K} (gt : K → K → bool) (key : A → Py K) l :
  (∀ x, readonly (key x)) →
  ∀ maxitem maxval x w w',
    max_loop gt key l maxitem maxval w = Ret (x, w') →
    w' = w ∧ (x = maxitem ∨ x ∈ l).
Proof.
  intros Hro. induction l as [|item l IH]; intros mi mv x w w' H.
  - apply ret_inv in H as [-> ->]. by split; [|left].
  - simpl in H. bind_inv H val w1 Hval. pose proof (Hro _ _ _ _ Hval) as ->.
    destruct (gt val mv); apply IH in H as [-> [->|Hin]]; split; try done;
      try (by left); right; apply elem_of_cons; try (by left); by right.
Qed.

Lemma py_max_elem {A K} (gt : K → K → bool) (key : A → Py K) l x w w' :
  (∀ x, readonly (key x)) →
  py_max gt key l w = Ret (x, w') → w' = w ∧ x ∈ l.
Proof.
  intros Hro. destruct l as [|item l]; [done|]. simpl. intros H.
  bind_inv H val w1 Hval. pose proof (Hro _ _ _ _ Hval) as ->.
  apply max_loop_elem in H as [-> [->|Hin]]; [| |done]; split; try done;
    apply elem_of_cons; try (by left); by right.
Qed.

Section Max.
Context {A K : Type} (gt : K → K → bool) (key : A → Py K).
Hypothesis gt_order : weak_order gt.
Hypothesis key_readonly : ∀ x, readonly (key x).

Lemma max_loop_first_max w l : ∀ pre maxitem post maxval x w',
  key maxitem w = Ret (maxval, w) →
  Forall (λ y, ∃ ky, key y w = Ret (ky, w) ∧ gt maxval ky = true) pre →
  Forall (λ y, ∃ ky, key y w = Ret (ky, w) ∧ gt ky maxval = false) post →
  max_loop gt key l maxitem maxval w = Ret (x, w') →
  w' = w ∧ first_max gt key w (pre ++ maxitem :: post ++ l) x.
Proof.
  induction l as [|item l IH]; intros pre mi post mv x w' Hmi Hpre Hpost H.
  - apply ret_inv in H as [-> ->]. split; [done|].
    exists pre, post, mv. by rewrite app_nil_r.
  - simpl in H. bind_inv H val w1 Hval.
    pose proof (key_readonly _ _ _ _ Hval) as ->.
    destruct (gt val mv) eqn:Hgt.
    + apply (IH (pre ++ mi :: post) item [] val) in H as [-> H]; [|done| |done].
      * split; [done|]. by rewrite <-app_assoc in H.
      * apply Forall_app. split; [|apply Forall_cons; split].
        -- eapply Forall_impl; [exact Hpre|]. intros y (ky & Hy & Hk).
           exists ky. split; [done|]. by eapply gt_trans.
        -- eauto.
        -- eapply Forall_impl; [exact Hpost|]. intros y (ky & Hy & Hk).
           exists ky. split; [done|]. by eapply gt_above.
    + apply (IH pre mi (post ++ [item]) mv) in H as [-> H]; [|done..| ].
      * split; [done|]. by rewrite <-app_assoc in H.
      * apply Forall_app. split; [done|]. apply Forall_singleton. eauto.
Qed.

(** [max(l, key=..)], when it returns, returns the first greatest item. *)
Lemma py_max_first_max w l x w' :
  py_max gt key l w = Ret (x, w') → w' = w ∧ first_max gt key w l x.
Proof.
  destruct l as [|item l]; [done|]. simpl. intros H.
  bind_inv H val w1 Hval. pose proof (key_readonly _ _ _ _ Hval) as ->.
  by apply (max_loop_first_max w l [] item [] val) in H.
Qed.

Lemma first_max_elem w l x : first_max gt key w l x → x ∈ l.
Proof using Type.
  intros (pre & post & kx & -> & _).
  apply elem_of_app. right. apply elem_of_cons. by left.
Qed.

(** No item has a key above that of the first greatest item. *)
Lemma first_max_greatest w l x :
  first_max gt key w l x →
  ∃ kx, key x w = Ret (kx, w) ∧
    ∀ y, y ∈ l → ∃ ky, key y w = Ret (ky, w) ∧ gt ky kx = false.
Proof.
  intros (pre & post & kx & -> & Hx & Hpre & Hpost). exists kx. split; [done|].
  intros y [Hy|[->|Hy]%elem_of_cons]%elem_of_app.
  - rewrite Forall_forall in Hpre. destruct (Hpre y Hy) as (ky & Hky & Hgt).
    exists ky. split; [done|]. destruct (gt ky kx) eqn:E; [|done].
    assert (gt kx kx = true) as Hxx by by eapply gt_trans.
    by rewrite (gt_irrefl gt gt_order) in Hxx.
  - exists kx. split; [done|]. by apply gt_irrefl.
  - rewrite Forall_forall in Hpost. by apply Hpost.
Qed.
End Max.

(** The same when [>] orders the keys of the items at hand, and maybe
    no others. *)
Section MaxOn.
Context {A K : Type} (gt : K → K → bool) (key : A → Py K).
Variable w : world.
Variable L : list A.
Hypothesis gt_order : weak_order_on gt (keys_of key w L).
Hypothesis key_readonly : ∀ x, readonly (key x).

Lemma max_loop_first_max_on l : ∀ pre maxitem post maxval x w',
  L = pre ++ maxitem :: post ++ l →
  key maxitem w = Ret (maxval, w) →
  Forall (λ y, ∃ ky, key y w = Ret (ky, w) ∧ gt maxval ky = true) pre →
  Forall (λ y, ∃ ky, key y w = Ret (ky, w) ∧ gt ky maxval = false) post →
  max_loop gt key l maxitem maxval w = Ret (x, w') →
  w' = w ∧ first_max gt key w L x.
Proof.
  pose proof gt_order as (_ & Htrans & Habove).
  induction l as [|item l IH]; intros pre mi post mv x w' HL Hmi Hpre Hpost H.
  - apply ret_inv in H as [-> ->]. split; [done|].
    exists pre, post, mv. by rewrite app_nil_r in HL.
  - simpl in H. bind_inv H val w1 Hval.
    pose proof (key_readonly _ _ _ _ Hval) as ->.
    assert (keys_of key w L mv) as Pmv.
    { exists mi. split; [|done]. rewrite HL. apply elem_of_app. right.
      apply elem_of_cons. by left. }
    assert (keys_of key w L val) as Pval.
    { exists item. split; [|done]. rewrite HL. apply elem_of_app. right.
      apply elem_of_cons. right. apply elem_of_app. right.
      apply elem_of_cons. by left. }
    destruct (gt val mv) eqn:Hgt.
    + apply (IH (pre ++ mi :: post) item [] val) in H as [-> H]; [done| |done| |done].
      * by rewrite <-app_assoc.
      * apply Forall_app. split; [|apply Forall_cons; split].
        -- apply Forall_forall. intros y Hy. rewrite Forall_forall in Hpre.
           destruct (Hpre y Hy) as (ky & Hky & Hk). exists ky. split; [done|].
           apply (Htrans _ mv); [done..| |done|done].
           exists y. split; [|done]. rewrite HL. apply elem_of_app. by left.
        -- eauto.
        -- apply Forall_forall. intros y Hy. rewrite Forall_forall in Hpost.
           destruct (Hpost y Hy) as (ky & Hky & Hk). exists ky. split; [done|].
           apply (Habove _ mv); [done..| |done|done].
           exists y. split; [|done]. rewrite HL. apply elem_of_app. right.
           apply elem_of_cons. right. apply elem_of_app. by left.
    + apply (IH pre mi (post ++ [item]) mv) in H as [-> H]; [done| |done..| ].
      * by rewrite <-app_assoc.
      * apply Forall_app. split; [done|]. apply Forall_singleton. eauto.
Qed.

Lemma py_max_first_max_on x w' :
  py_max gt key L w = Ret (x, w') → w' = w ∧ first_max gt key w L x.
Proof.
  intros H. pose proof (max_loop_first_max_on) as Hloop.
  destruct L as [|item l]; [done|]. simpl in H.
  bind_inv H val w1 Hval. pose proof (key_readonly _ _ _ _ Hval) as ->.
  by apply (Hloop l [] item [] val) in H.
Qed.
End MaxOn.
End Selection.

(** ** Exact scores *)

Section ExactScores.
Context `{board : Board}.

(** With exact numbers the square root of [ucb] is defined. *)
Lemma exact_sqrt_log pv v :
  pv ≠ 0 → v ≠ 0 →
  num_sqrt (num_div (log_int pv) (of_int v))
  = Some (Fin (sqrt (ln (INR pv) / INR v))).
Proof.
  intros Hpv Hv. simpl. destruct (decide _) as [Hlt|_]; [exfalso|done].
  apply (Rlt_not_le _ _ Hlt). apply Rmult_le_pos.
  - assert (1 <= INR pv)%R as [Hgt|<-].
    { replace 1%R with (INR 1) by done. apply le_INR. lia. }
    + left. rewrite <-ln_1. apply ln_increasing; [lra|done].
    + rewrite ln_1. lra.
  - left. apply Rinv_0_lt_compat. apply lt_0_INR. lia.
Qed.

(** The score of a visited node whose parent has been visited. *)
Lemma exact_ucb_visited c b w cn p pn :
  heap w !! c = Some cn → visits cn ≠ 0 →
  parent cn = Some p → heap w !! p = Some pn → visits pn ≠ 0 →
  ucb c b w
  = Ret (Fin ((if b then 1 - INR (wins cn) / INR (visits cn)
               else INR (wins cn) / INR (visits cn))
              + 2 * sqrt (ln (INR (visits pn)) / INR (visits cn))), w).
Proof.
  intros Hc Hv Hp Hpn Hpv. unfold ucb.
  rewrite (bind_ret_l _ _ _ _ _ (get_node_lookup _ _ _ Hc)).
  apply Nat.eqb_neq in Hv as Hv'. rewrite Hv', Hp.
  rewrite (bind_ret_l _ _ _ _ _ (get_node_lookup _ _ _ Hpn)).
  apply Nat.eqb_neq in Hpv as Hpv'. rewrite Hpv'.
  rewrite exact_sqrt_log by done. unfold ret. do 2 f_equal.
  destruct b; simpl; f_equal; lra.
Qed.

(** [ucb] returns infinity exactly on a node never visited. *)
Lemma ucb_inv c b w s w' :
  ucb c b w = Ret (s, w') →
  w' = w ∧ ∃ cn, heap w !! c = Some cn ∧ (s = Inf ↔ visits cn = 0).
Proof.
  intros H. pose proof (ucb_readonly c b _ _ _ H) as ->. split; [done|].
  unfold ucb in H. bind_inv H cn w1 Hc.
  apply get_node_inv in Hc as [-> Hc]. exists cn. split; [done|].
  destruct (visits cn =? 0) eqn:Hv.
  - apply ret_inv in H as [-> _]. by apply Nat.eqb_eq in Hv.
  - apply Nat.eqb_neq in Hv. destruct (parent cn) as [p|]; [|done].
    bind_inv H pn w1 Hp. apply get_node_inv in Hp as [-> Hp].
    destruct (visits pn =? 0) eqn:Hpv; [done|]. apply Nat.eqb_neq in Hpv.
    rewrite exact_sqrt_log in H by done.
    apply ret_inv in H as [-> _]. by destruct b.
Qed.
End ExactScores.

(** ** The rollout policy, as the specification words it *)

Section Policy.
Context `{board : Board}.
Variable rnd : nat → nat.

Lemma winning_loop_find state legal :
  winning_loop state legal = List.find (leads_to_terminal state) legal.
Proof.
  induction legal as [|a l IH]; [done|]. simpl. unfold leads_to_terminal at 1.
  by destruct (bool_decide _).
Qed.

(** Once the first loop has found nothing, the second finds nothing. *)
Lemma blocking_loop_dead state legal w :
  winning_loop state legal = None → blocking_loop state legal w = Ret (None, w).
Proof.
  induction legal as [|a l IH]; [done|]. simpl.
  destruct (bool_decide _) eqn:E; [done|]. intros Hl.
  unfold bind at 1. simpl. by apply IH.
Qed.

Lemma opponent_win_is_terminal state a :
  leads_to_opponent_win state a = true → leads_to_terminal state a = true.
Proof.
  unfold leads_to_opponent_win, leads_to_terminal.
  destruct (points_values _); [|done]. intros _. by apply bool_decide_eq_true.
Qed.

Lemma no_terminal_no_opponent_win state legal :
  List.find (leads_to_terminal state) legal = None →
  List.find (leads_to_opponent_win state) legal = None.
Proof.
  induction legal as [|a l IH]; [done|]. simpl.
  destruct (leads_to_terminal state a) eqn:E; [done|]. intros Hl.
  destruct (leads_to_opponent_win state a) eqn:E'; [|by apply IH].
  apply opponent_win_is_terminal in E'. congruence.
Qed.

(** What [heuristic_action_choice] comes to: the result of the first
    loop when it returns from inside, [choice] otherwise. *)
Lemma heuristic_action_choice_cases state legal w :
  heuristic_action_choice rnd state legal w
  = match winning_loop state legal with
    | Some a => Ret (a, w)
    | None => choice rnd legal w
    end.
Proof.
  unfold heuristic_action_choice.
  destruct (winning_loop state legal) as [a|] eqn:E; [done|].
  by rewrite (bind_ret_l _ _ _ _ _ (blocking_loop_dead state legal w E)).
Qed.

(** C5. [heuristic_action_choice] is the three-tier policy: the first
    legal action that leads to a state with [points_values] not [None]
    if there is one; otherwise the first that leads to a terminal state
    won by the opponent of the player to move if there is one; otherwise
    [random.choice(legal_actions)].  The world it leaves behind and the
    exception of [choice] on an empty list are the same as well. *)
Theorem heuristic_action_choice_three_tiers state legal w :
  heuristic_action_choice rnd state legal w = three_tier_policy rnd state legal w.
Proof.
  rewrite heuristic_action_choice_cases, winning_loop_find.
  unfold three_tier_policy.
  destruct (List.find (leads_to_terminal state) legal) as [a|] eqn:E; [done|].
  by rewrite (no_terminal_no_opponent_win _ _ E).
Qed.

(** C6. The second tier of [heuristic_action_choice] is dead code: when
    the first loop returns nothing the second loop returns nothing
    either, raises nothing and leaves the world as it was, so the
    function is the two-tier policy "first action to a terminal state,
    else random". *)
Theorem heuristic_second_tier_dead state legal w :
  (winning_loop state legal = None →
   blocking_loop state legal w = Ret (None, w)) ∧
  heuristic_action_choice rnd state legal w = two_tier_policy rnd state legal w.
Proof.
  split; [apply blocking_loop_dead|].
  rewrite heuristic_action_choice_cases, winning_loop_find.
  unfold two_tier_policy.
  by destruct (List.find (leads_to_terminal state) legal).
Qed.

(** C10. [is_win] raises [AssertionError] exactly when [points_values]
    is [None]; with an outcome that has a score [v] for the bot it
    returns whether [v] equals 1, which is [False] for a draw score of
    one half. *)
Theorem is_win_fails_fast state identity_of_bot (w : world) :
  (is_win state identity_of_bot w = Raise AssertionError ↔
   points_values state = None) ∧
  (∀ outcome v,
     points_values state = Some outcome → outcome !! identity_of_bot = Some v →
     is_win state identity_of_bot w = Ret (Qeq_bool v 1, w) ∧
     (Qeq_bool v 1 = true ↔ (v == 1)%Q) ∧
     ((v == 1 # 2)%Q → is_win state identity_of_bot w = Ret (false, w))).
Proof.
  unfold is_win. split.
  - destruct (points_values state) as [o|]; [|done].
    destruct (o !! identity_of_bot); done.
  - intros o v -> ->. split; [done|]. split; [apply Qeq_bool_iff|].
    intros Hv. unfold ret. do 2 f_equal.
    destruct (Qeq_bool v 1) eqn:E; [|done].
    apply Qeq_bool_iff in E. rewrite Hv in E. done.
Qed.
End Policy.

(** ** Selection and the final choice *)

Section Choice.
Context `{board : Board} `{clock : Clock} `{scores : Scores}.
Variable rnd : nat → nat.
Variable clk : nat → seconds.

Lemma get_best_action_inv root_node w a w' :
  get_best_action root_node w = Ret (a, w') →
  w' = w ∧ ∃ n child,
    heap w !! root_node = Some n ∧
    first_max nat_gt visits_key w (child_nodes n) (a, child).
Proof.
  unfold get_best_action. intros H. bind_inv H n w1 Hn.
  apply get_node_inv in Hn as [-> Hn]. bind_inv H best w1 Hbest.
  apply ret_inv in H as [-> ->].
  apply (py_max_first_max nat_gt visits_key nat_gt_order visits_key_readonly)
    in Hbest as [-> Hbest].
  split; [done|]. exists n, best.2. split; [done|]. by destruct best.
Qed.

(** What [max] moves [traverse_nodes] to is a child of the node. *)
Lemma best_child_in n state bot_identity w c w' :
  best_child n state bot_identity w = Ret (c, w') →
  w' = w ∧ c ∈ values (child_nodes n).
Proof.
  unfold best_child. intros H.
  apply py_max_elem in H; [done|]. intros x. apply ucb_readonly.
Qed.

(** When every key can be computed, [max] of a non-empty list returns. *)
Lemma max_loop_total {A K} gt (key : A → M world K) w l :
  Forall (λ x, ∃ k, key x w = Ret (k, w)) l →
  ∀ maxitem maxval, ∃ x, max_loop gt key l maxitem maxval w = Ret (x, w).
Proof.
  induction 1 as [|item l [k Hk] _ IH]; intros mi mv; simpl; [by eexists|].
  rewrite (bind_ret_l _ _ _ _ _ Hk). destruct (gt k mv); apply IH.
Qed.

Lemma py_max_total {A K} gt (key : A → M world K) w l :
  l ≠ [] → Forall (λ x, ∃ k, key x w = Ret (k, w)) l →
  ∃ x, py_max gt key l w = Ret (x, w).
Proof.
  destruct l as [|item l]; [done|]. intros _ [[k Hk] Hl]%Forall_cons. simpl.
  rewrite (bind_ret_l _ _ _ _ _ Hk). by apply max_loop_total.
Qed.

(** [ucb] has a value on a child whose parent has been visited, when
    the square root has one. *)
Lemma ucb_total c b w cn :
  sqrt_log_defined →
  heap w !! c = Some cn →
  (visits cn = 0 ∨
   ∃ p pn, parent cn = Some p ∧ heap w !! p = Some pn ∧ visits pn ≠ 0) →
  ∃ s, ucb c b w = Ret (s, w).
Proof.
  intros Hsqrt Hc Hv. unfold ucb.
  rewrite (bind_ret_l _ _ _ _ _ (get_node_lookup _ _ _ Hc)).
  destruct (visits cn =? 0) eqn:E; [by eexists|]. apply Nat.eqb_neq in E.
  destruct Hv as [Hv|(p & pn & -> & Hp & Hv)]; [done|].
  rewrite (bind_ret_l _ _ _ _ _ (get_node_lookup _ _ _ Hp)).
  destruct (Hsqrt (visits pn) (visits cn)) as [root ->]; [lia..|].
  apply Nat.eqb_neq in Hv as ->. by eexists.
Qed.
End Choice.

(** ** Selection with exact scores

    A score is infinite or a real number; every finite score is below
    the infinite one. *)

Section ExactChoice.
Context `{board : Board}.

Lemma exact_sqrt_log_defined : sqrt_log_defined.
Proof. intros n m Hn Hm. rewrite exact_sqrt_log by lia. by eexists. Qed.

Lemma best_child_inv n state bot_identity w c w' :
  best_child n state bot_identity w = Ret (c, w') →
  w' = w ∧
  first_max score_gt
    (λ c, ucb c (negb (current_player state =? bot_identity)%Z))
    w (values (child_nodes n)) c.
Proof.
  unfold best_child. intros H.
  by apply (py_max_first_max score_gt _ score_gt_order) in H;
    [|intros x; apply (ucb_readonly (scores:=exact_scores))].
Qed.

Lemma best_child_unvisited n state bot_identity w c w' :
  has_unvisited_child w n →
  best_child n state bot_identity w = Ret (c, w') →
  c ∈ values (child_nodes n) ∧ ∃ cn, heap w !! c = Some cn ∧ visits cn = 0.
Proof.
  intros (c0 & cn0 & Hin & Hc0 & Hv0) H.
  apply best_child_inv in H as [-> H]. split; [exact (first_max_elem _ _ _ _ _ H)|].
  apply (first_max_greatest _ _ score_gt_order) in H as (kx & Hx & Hall).
  destruct (Hall c0 Hin) as (k0 & Hk0 & Hgt).
  rewrite (ucb_unvisited _ _ _ _ Hc0 Hv0) in Hk0. injection Hk0 as <-.
  apply score_Inf_top in Hgt as ->.
  apply ucb_inv in Hx as (_ & cn & Hc & Hinf). exists cn. split; [done|].
  by apply Hinf.
Qed.

(** C4. [ucb] is infinite on a node with no visits, whatever the flag;
    so when a node has a never-visited child, [max] moves
    [traverse_nodes] to a child with no visits (and it does return a
    child once the visited ones have a visited parent), whatever the
    wins and visits of the other children. *)
Theorem unvisited_child_is_selected :
  (∀ c is_opponent (w : world) cn,
     heap w !! c = Some cn → visits cn = 0 →
     ucb c is_opponent w = Ret (Inf, w)) ∧
  (∀ n state bot_identity (w : world),
     has_unvisited_child w n →
     (∀ c w', best_child n state bot_identity w = Ret (c, w') →
        w' = w ∧ ∃ cn, heap w !! c = Some cn ∧ visits cn = 0) ∧
     (Forall (λ c, ∃ cn, heap w !! c = Some cn ∧
                (visits cn = 0 ∨
                 ∃ p pn, parent cn = Some p ∧ heap w !! p = Some pn ∧
                         visits pn ≠ 0))
             (values (child_nodes n)) →
      ∃ c, best_child n state bot_identity w = Ret (c, w))) ∧
  (∀ fuel node state bot_identity (w : world) n r w',
     heap w !! node = Some n → is_ended state = false →
     untried_actions n = [] → has_unvisited_child w n →
     traverse_nodes (S fuel) node state bot_identity w = Ret (r, w') →
     ∃ c cn a,
       c ∈ values (child_nodes n) ∧ heap w !! c = Some cn ∧ visits cn = 0 ∧
       parent_action cn = Some a ∧
       traverse_nodes fuel c (next_state state a) bot_identity w = Ret (r, w')).
Proof.
  split; [exact ucb_unvisited|]. split.
  - intros n state bot w Hun. split.
    + intros c w' H. pose proof H as [-> _]%best_child_inv. split; [done|].
      by eapply best_child_unvisited.
    + intros Hall. apply py_max_total.
      * destruct Hun as (c0 & _ & Hin & _). intros E. rewrite E in Hin.
        by apply elem_of_nil in Hin.
      * eapply Forall_impl; [exact Hall|]. intros c (cn & Hc & Hv).
        by eapply ucb_total; [apply exact_sqrt_log_defined|..].
  - intros fuel node state bot w n r w' Hn Hend Hunt Hun H. simpl in H.
    rewrite (bind_ret_l _ _ _ _ _ (get_node_lookup _ _ _ Hn)) in H.
    rewrite Hend, Hunt in H. simpl in H.
    destruct (is_nil (child_nodes n)) eqn:Hnil.
    { destruct Hun as (c0 & _ & Hin & _). destruct (child_nodes n); [|done].
      by apply elem_of_nil in Hin. }
    bind_inv H c w1 Hc. pose proof Hc as [-> _]%best_child_inv.
    destruct (best_child_unvisited _ _ _ _ _ _ Hun Hc) as (Hin & cn & Hcn & Hv).
    rewrite (bind_ret_l _ _ _ _ _ (get_node_lookup _ _ _ Hcn)) in H.
    destruct (parent_action cn) as [a|] eqn:Ha; [|done].
    exists c, cn, a. done.
Qed.

End ExactChoice.

(** ** The final choice, and ties *)

Section Final.
Context `{board : Board} `{clock : Clock} `{scores : Scores}.
Variable rnd : nat → nat.
Variable clk : nat → seconds.

(** C9, as the code has it.  Ties go to the candidate met first in the
    iteration order of the [child_nodes] dict, which is the order in
    which the children were inserted: [get_best_action] returns the key
    of the first entry whose visits are greatest, and the [max] of
    [traverse_nodes] the first child whose UCB score is greatest.  The
    scores are the ones the arithmetic at hand computes, rounded as it
    rounds them, and a tie is a tie of these: the statement holds for
    every arithmetic whose [>] orders the scores of the children it
    compares (for floats: none of them is a NaN). *)
Theorem ties_go_to_first_in_dict_order :
  (∀ root_node (w : world) a w',
     get_best_action root_node w = Ret (a, w') →
     ∃ n child, heap w !! root_node = Some n ∧
       first_max nat_gt visits_key w (child_nodes n) (a, child)) ∧
  (∀ n state bot_identity (w : world) c w',
     weak_order_on num_gt
       (keys_of (λ c, ucb c (negb (current_player state =? bot_identity)%Z))
                w (values (child_nodes n))) →
     best_child n state bot_identity w = Ret (c, w') →
     first_max num_gt
       (λ c, ucb c (negb (current_player state =? bot_identity)%Z))
       w (values (child_nodes n)) c).
Proof.
  split.
  - intros root w a w' H. by apply get_best_action_inv in H as [_ H].
  - intros n state bot w c w' Hord H. unfold best_child in H.
    apply (py_max_first_max_on num_gt _ w _ Hord) in H as [_ H]; [done|].
    intros x. apply ucb_readonly.
Qed.

(** C1. The action [think] returns is the key of a child of the root
    whose visits are greatest among the children of the root, and the
    key of the child with strictly the most visits when there is one.
    The root is the node [think] allocates first, at index
    [length (heap w)]. *)
Theorem think_returns_most_visited fuel current_state time_limit
    (w : world) action iterations w' :
  think_counted rnd clk fuel current_state time_limit w
    = Ret ((action, iterations), w') →
  ∃ root child c,
    heap w' !! length (heap w) = Some root ∧
    (action, child) ∈ child_nodes root ∧
    heap w' !! child = Some c ∧
    (∀ a' child' c',
       (a', child') ∈ child_nodes root → heap w' !! child' = Some c' →
       visits c' ≤ visits c) ∧
    (∀ a' child' c',
       (a', child') ∈ child_nodes root → heap w' !! child' = Some c' →
       (∀ a'' child'' c'',
          (a'', child'') ∈ child_nodes root → heap w' !! child'' = Some c'' →
          (a'', child'') ≠ (a', child') → visits c'' < visits c') →
       action = a').
Proof.
  unfold think_counted. intros H.
  bind_inv H root_node w1 Hroot. injection Hroot as <- <-.
  bind_inv H start w2 Hstart. bind_inv H k w3 Hloop.
  bind_inv H best w4 Hbest. apply ret_inv in H as [[= <- <-] ->].
  apply get_best_action_inv in Hbest as (-> & n & child & Hn & Hmax).
  pose proof (first_max_elem _ _ _ _ _ Hmax) as Hin.
  apply (first_max_greatest _ _ nat_gt_order) in Hmax as (kx & Hx & Hall).
  apply visits_key_inv in Hx as (_ & c & Hc & ->). simpl in Hc.
  assert (∀ a' child' c', (a', child') ∈ child_nodes n →
            heap w3 !! child' = Some c' → visits c' ≤ visits c) as Hle.
  { intros a' child' c' Hin' Hc'.
    destruct (Hall _ Hin') as (ky & Hy & Hgt).
    apply visits_key_inv in Hy as (_ & cy & Hcy & ->). simpl in Hcy.
    assert (cy = c') as -> by congruence.
    unfold nat_gt in Hgt. apply Nat.ltb_ge in Hgt. lia. }
  exists n, child, c. repeat split; [done..|].
  intros a' child' c' Hin' Hc' Hstrict.
  destruct (decide ((action, child) = (a', child'))) as [[= -> ->]|Hne]; [done|].
  specialize (Hstrict _ _ _ Hin Hc Hne).
  specialize (Hle _ _ _ Hin' Hc'). lia.
Qed.

End Final.

(** ** A budget of zero *)

(** The readings of the clock as exact numbers. *)
Section ZeroBudget.
Context `{board : Board} `{scores : Scores}.
Variable rnd : nat → nat.
Variable clk : nat → Q.

(** C8, on the code.  With a time limit of zero and a clock that does
    not run backwards, the loop of [think] does not run once, the root
    has no child, and [max()] in [get_best_action] raises [ValueError]
    on the empty sequence; nothing catches it. *)
Theorem think_zero_budget_raises fuel current_state (w : world) :
  (clk (clk_pos w) <= clk (S (clk_pos w)))%Q →
  think rnd clk (S fuel) current_state 0%Q w = Raise ValueError.
Proof.
  intros Hclk. unfold think, think_counted, bind, new_node, time. simpl.
  unfold bind, time, Qlt_bool. simpl.
  destruct (Qlt_le_dec _ _) as [Hlt|_].
  - exfalso. lra.
  - unfold ret, get_best_action, bind, get_node. simpl.
    by rewrite lookup_app_r, Nat.sub_diag.
Qed.
End ZeroBudget.

(** ** Backpropagation *)

Section Backpropagation.
Context `{board : Board}.

Lemma shape_insert (h : list MCTSNode) i n n' :
  h !! i = Some n → shape n' = shape n → shape <$> <[i := n']> h = shape <$> h.
Proof.
  intros Hi Hs. rewrite list_fmap_insert, Hs. apply list_insert_id.
  by rewrite list_lookup_fmap, Hi.
Qed.

Lemma shape_lookup (h h' : list MCTSNode) i n :
  shape <$> h = shape <$> h' → h !! i = Some n →
  ∃ n', h' !! i = Some n' ∧ shape n' = shape n.
Proof.
  intros Hs Hi. assert ((shape <$> h') !! i = Some (shape n)) as H.
  { by rewrite <-Hs, list_lookup_fmap, Hi. }
  rewrite list_lookup_fmap in H. destruct (h' !! i) as [n'|]; [|done].
  simpl in H. injection H as H1 H2 H3 H4. exists n'. split; [done|].
  unfold shape. congruence.
Qed.

Lemma parent_chain_shape (h h' : list MCTSNode) i l :
  shape <$> h = shape <$> h' → parent_chain h i l → parent_chain h' i l.
Proof.
  intros Hs. induction 1 as [i n Hi Hp|i n p l Hi Hp _ IH].
  - destruct (shape_lookup _ _ _ _ Hs Hi) as (n' & Hi' & [= Hp' _ _ _]).
    eapply chain_root; [done|]. congruence.
  - destruct (shape_lookup _ _ _ _ Hs Hi) as (n' & Hi' & [= Hp' _ _ _]).
    eapply chain_step; [done| |done]. congruence.
Qed.

Lemma parent_chain_functional h i l1 l2 :
  parent_chain h i l1 → parent_chain h i l2 → l1 = l2.
Proof.
  intros H. revert l2.
  induction H as [i n Hi Hp|i n p l Hi Hp _ IH]; intros l2 H2;
    inversion H2; simplify_eq; try done.
  f_equal. by apply IH.
Qed.

Lemma parent_chain_suffix h i l j :
  parent_chain h i l → j ∈ l →
  ∃ l', parent_chain h j l' ∧ length l' ≤ length l.
Proof.
  induction 1 as [i n Hi Hp|i n p l Hi Hp Hl IH].
  - intros ->%list_elem_of_singleton. exists [i]. split; [|done].
    by eapply chain_root.
  - intros [->|Hj]%elem_of_cons.
    + exists (i :: l). split; [|done]. by eapply chain_step.
    + destruct (IH Hj) as (l' & Hl' & Hlen). exists l'. split; [done|].
      simpl. lia.
Qed.

(** A finite chain visits no node twice. *)
Lemma parent_chain_NoDup h i l : parent_chain h i l → NoDup l.
Proof.
  induction 1 as [i n Hi Hp|i n p l Hi Hp Hl IH].
  - apply NoDup_singleton.
  - apply NoDup_cons. split; [|done]. intros Hin.
    destruct (parent_chain_suffix _ _ _ _ Hl Hin) as (l' & Hl' & Hlen).
    assert (l' = i :: l) as ->.
    { eapply parent_chain_functional; [done|]. by eapply chain_step. }
    simpl in Hlen. lia.
Qed.

Lemma parent_chain_last h i l :
  parent_chain h i l → ∃ r n, last l = Some r ∧ h !! r = Some n ∧ parent n = None.
Proof.
  induction 1 as [i n Hi Hp|i n p l Hi Hp Hl (r & rn & Hlast & Hr)]; [by eauto|].
  exists r, rn. split; [|done]. destruct l; [done|]. by rewrite last_cons, Hlast.
Qed.

(** One turn of the loop of [backpropagate]. *)
Lemma backpropagate_step fuel i won (w : world) n :
  heap w !! i = Some n →
  backpropagate (S fuel) (Some i) won w
  = backpropagate fuel (parent n) (negb won)
      (World (<[i := credited won n]> (heap w)) (rnd_pos w) (clk_pos w)).
Proof.
  intros Hi. pose proof (lookup_lt_Some _ _ _ Hi) as Hlt.
  simpl. unfold bind, update_node, get_node. rewrite Hi. simpl.
  rewrite list_lookup_insert_eq by done. simpl.
  rewrite list_lookup_insert_eq by (by rewrite length_insert). simpl.
  by rewrite list_insert_insert_eq.
Qed.

Lemma backpropagate_None fuel won (w : world) :
  backpropagate fuel None won w = Ret (tt, w).
Proof. by destruct fuel. Qed.

Lemma backpropagate_chain l : ∀ i won fuel (w : world),
  parent_chain (heap w) i l → length l ≤ fuel →
  ∃ w', backpropagate fuel (Some i) won w = Ret (tt, w') ∧
        backpropagated l won w w'.
Proof.
  induction l as [|i0 l IH]; intros i won fuel w Hchain Hfuel;
    [inversion Hchain|].
  destruct fuel as [|fuel]; [simpl in Hfuel; lia|].
  pose proof (parent_chain_NoDup _ _ _ Hchain) as [Hnotin _]%NoDup_cons.
  inversion Hchain as [i' n Hi Hp|i' n p l' Hi Hp Hl]; simplify_eq.
  - rewrite (backpropagate_step _ _ _ _ _ Hi), Hp, backpropagate_None.
    eexists. split; [done|].
    split; [done|]. split; [done|]. simpl. split; [|split].
    + by eapply shape_insert.
    + intros [|k] j m Hk Hj; [|done]. injection Hk as <-.
      rewrite list_lookup_insert_eq by by eapply lookup_lt_Some.
      simpl. congruence.
    + intros j Hj. apply list_lookup_insert_ne. set_solver.
  - rewrite (backpropagate_step _ _ _ _ _ Hi), Hp.
    set (w1 := World (<[i0 := credited won n]> (heap w)) (rnd_pos w) (clk_pos w)).
    assert (shape <$> heap w1 = shape <$> heap w) as Hs1 by by eapply shape_insert.
    destruct (IH p (negb won) fuel w1) as (w' & Hrun & Hr & Hc & Hs & Hon & Hoff).
    { eapply parent_chain_shape; [|done]. done. }
    { simpl in Hfuel. lia. }
    exists w'. split; [done|]. split; [done|]. split; [done|].
    split; [congruence|]. split.
    + intros [|k] j m Hk Hj.
      * injection Hk as <-. rewrite (Hoff _ Hnotin). simpl.
        rewrite list_lookup_insert_eq by by eapply lookup_lt_Some.
        simpl. congruence.
      * simpl in Hk. simpl. apply Hon; [done|]. simpl.
        rewrite list_lookup_insert_ne; [done|].
        intros ->. apply Hnotin. by eapply list_elem_of_lookup_2.
    + intros j Hj. rewrite Hoff by set_solver. simpl.
      apply list_lookup_insert_ne. set_solver.
Qed.

(** C2. From a node [i] with a finite parent chain [l], and with fuel
    for [length l] turns of the loop, [backpropagate] returns; the
    [k]-th node of the chain gets one more visit and the credit of
    [won] inverted [k] times; the last node of the chain is the root
    (no parent), and no node off the chain changes.  For a chain
    grandchild, child, root and [won = True] the wins go up by 1, 0
    and 1. *)
Theorem backpropagate_alternates :
  (∀ i l won fuel (w : world),
     parent_chain (heap w) i l → length l ≤ fuel →
     ∃ w', backpropagate fuel (Some i) won w = Ret (tt, w') ∧
       (∀ k j n, l !! k = Some j → heap w !! j = Some n →
          ∃ n', heap w' !! j = Some n' ∧
            visits n' = visits n + 1 ∧
            wins n' = wins n + bool_to_nat (alternate won k) ∧
            shape n' = shape n) ∧
       (∀ j, j ∉ l → heap w' !! j = heap w !! j) ∧
       (∃ r n, last l = Some r ∧ heap w !! r = Some n ∧ parent n = None)) ∧
  (∀ grandchild child root g c r fuel (w : world),
     heap w !! grandchild = Some g → parent g = Some child →
     heap w !! child = Some c → parent c = Some root →
     heap w !! root = Some r → parent r = None → 3 ≤ fuel →
     ∃ w' g' c' r',
       backpropagate fuel (Some grandchild) true w = Ret (tt, w') ∧
       heap w' !! grandchild = Some g' ∧ heap w' !! child = Some c' ∧
       heap w' !! root = Some r' ∧
       wins g' = wins g + 1 ∧ wins c' = wins c + 0 ∧ wins r' = wins r + 1 ∧
       visits g' = visits g + 1 ∧ visits c' = visits c + 1 ∧
       visits r' = visits r + 1).
Proof.
  split.
  - intros i l won fuel w Hchain Hfuel.
    destruct (backpropagate_chain l i won fuel w Hchain Hfuel)
      as (w' & Hrun & _ & _ & _ & Hon & Hoff).
    exists w'. split; [done|]. split; [|split; [done|]].
    + intros k j n Hk Hj. eexists. split; [by eapply Hon|]. done.
    + by eapply parent_chain_last.
  - intros gi ci ri g c r fuel w Hg Hpg Hc Hpc Hr Hpr Hfuel.
    assert (parent_chain (heap w) gi [gi; ci; ri]) as Hchain.
    { eapply chain_step; [done..|]. eapply chain_step; [done..|].
      by eapply chain_root. }
    destruct (backpropagate_chain _ gi true fuel w Hchain Hfuel)
      as (w' & Hrun & _ & _ & _ & Hon & _).
    exists w', (credited true g), (credited false c), (credited true r).
    split; [done|].
    pose proof (Hon 0 gi g eq_refl Hg) as H0.
    pose proof (Hon 1 ci c eq_refl Hc) as H1.
    pose proof (Hon 2 ri r eq_refl Hr) as H2.
    done.
Qed.
End Backpropagation.

(** ** Dicts and lists *)

Section ContainerFacts.
Context {K V : Type} `{EqDecision K}.
Implicit Types (d : list (K * V)) (l : list K).

(** Assigning to a key adds at most the new entry. *)
Lemma elem_of_dict_set k v d x :
  x ∈ dict_set k v d → x = (k, v) ∨ x ∈ d.
Proof.
  induction d as [|[k' v'] d IH]; simpl.
  - intros ->%list_elem_of_singleton. by left.
  - destruct (decide (k' = k)) as [->|Hne].
    + intros [->|Hx]%elem_of_cons; [by left|]. right. apply elem_of_cons. by right.
    + intros [->|Hx]%elem_of_cons; [right; apply elem_of_cons; by left|].
      destruct (IH Hx) as [->|Hd]; [by left|]. right. apply elem_of_cons. by right.
Qed.

(** Assigning to a key that is not in the dict appends it. *)
Lemma dict_set_fresh k v d : k ∉ keys d → dict_set k v d = d ++ [(k, v)].
Proof.
  induction d as [|[k' v'] d IH]; [done|]. simpl.
  intros Hk. destruct (decide (k' = k)) as [->|Hne].
  - exfalso. apply Hk. apply elem_of_cons. by left.
  - f_equal. apply IH. intros Hin. apply Hk. apply elem_of_cons. by right.
Qed.

(** Assigning to a key that is in the dict keeps the keys as they are. *)
Lemma keys_dict_set_present k v d : k ∈ keys d → keys (dict_set k v d) = keys d.
Proof.
  induction d as [|[k' v'] d IH]; simpl.
  - by intros ?%elem_of_nil.
  - intros Hk. destruct (decide (k' = k)) as [->|Hne]; [done|].
    simpl. f_equal. apply IH. by apply elem_of_cons in Hk as [?|?].
Qed.

Lemma list_remove_Some x l rest : list_remove x l = Some rest → l ≡ₚ x :: rest.
Proof.
  revert rest. induction l as [|y l IH]; intros rest; [done|]. simpl.
  destruct (decide (y = x)) as [->|Hne]; [by intros [= ->]|].
  destruct (list_remove x l) as [rest'|]; [|done]. intros [= <-].
  rewrite (IH rest' eq_refl). apply Permutation_swap.
Qed.

Lemma list_remove_elem_of x l : x ∈ l → is_Some (list_remove x l).
Proof.
  induction l as [|y l IH]; [by intros ?%elem_of_nil|]. simpl.
  intros Hx. destruct (decide (y = x)) as [->|Hne]; [by eexists|].
  apply elem_of_cons in Hx as [?|Hx]; [done|].
  destruct (IH Hx) as [rest ->]. by eexists.
Qed.
End ContainerFacts.

(** ** The search tree *)

Section Tree.
Context `{board : Board} `{clock : Clock} `{scores : Scores}.
Variable rnd : nat → nat.
Variable clk : nat → seconds.

Lemma shape_extends (h h' : list MCTSNode) :
  shape <$> h = shape <$> h' → extends h h'.
Proof.
  intros Hs i n Hi.
  destruct (shape_lookup _ _ _ _ Hs Hi) as (n' & Hi' & [= ? ? _ _]). eauto.
Qed.

Lemma wf_tree_shape r (h h' : list MCTSNode) :
  shape <$> h = shape <$> h' → wf_tree r h → wf_tree r h'.
Proof.
  intros Hs [(rn & Hr & Hrp) Hpar Hch].
  assert (shape <$> h' = shape <$> h) as Hs' by done.
  split.
  - destruct (shape_lookup _ _ _ _ Hs Hr) as (rn' & Hr' & [= ? _ _ _]).
    exists rn'. split; [done|congruence].
  - intros i n' Hi' Hlt.
    destruct (shape_lookup _ _ _ _ Hs' Hi') as (n & Hi & [= Hp _ _ _]).
    rewrite <-Hp. by eapply Hpar.
  - intros i n' a c Hi' Hle Hin.
    destruct (shape_lookup _ _ _ _ Hs' Hi') as (n & Hi & [= _ _ Hc _]).
    rewrite <-Hc in Hin.
    destruct (Hch i n a c Hi Hle Hin) as (cn & Hcn & Hlt & Hp & Hpa).
    destruct (shape_lookup _ _ _ _ Hs Hcn) as (cn' & Hcn' & [= ? ? _ _]).
    exists cn'. repeat split; [done..|congruence|congruence].
Qed.

Lemma node_state_extends r s0 (h h' : list MCTSNode) i s :
  extends h h' → node_state r s0 h i s → node_state r s0 h' i s.
Proof.
  intros Hext. induction 1 as [n Hn Hp|i n p a s Hi Hp Ha _ IH].
  - destruct (Hext _ _ Hn) as (n' & Hn' & Hp' & _).
    eapply state_root; [done|congruence].
  - destruct (Hext _ _ Hi) as (n' & Hn' & Hp' & Ha').
    apply (state_child _ _ _ i n' p a s); [done|congruence|congruence|done].
Qed.

Lemma node_state_functional r s0 (h : list MCTSNode) i s1 s2 :
  node_state r s0 h i s1 → node_state r s0 h i s2 → s1 = s2.
Proof.
  intros H. revert s2.
  induction H as [n Hn Hp|i n p a s Hi Hp Ha _ IH]; intros s2 H2;
    inversion H2; simplify_eq; try done.
  f_equal. by apply IH.
Qed.

Lemma node_state_lookup r s0 (h : list MCTSNode) i s :
  node_state r s0 h i s → is_Some (h !! i).
Proof. by inversion 1; eexists. Qed.

(** *** What each step does to the world *)

Lemma choice_inv {A} (seq : list A) (w : world) x w' :
  choice rnd seq w = Ret (x, w') →
  x ∈ seq ∧ heap w' = heap w ∧ clk_pos w' = clk_pos w.
Proof.
  unfold choice. destruct (seq !! _) as [y|] eqn:E; [|done].
  intros [= <- <-]. split; [|done]. by eapply list_elem_of_lookup_2.
Qed.

Lemma is_win_inv state id (w : world) b w' :
  is_win state id w = Ret (b, w') → w' = w.
Proof.
  unfold is_win. destruct (points_values state) as [o|]; [|done].
  destruct (o !! id); [|done]. by intros [= _ ->].
Qed.

Lemma heuristic_action_choice_inv state legal (w : world) a w' :
  heuristic_action_choice rnd state legal w = Ret (a, w') →
  heap w' = heap w ∧ clk_pos w' = clk_pos w.
Proof.
  rewrite heuristic_action_choice_cases.
  destruct (winning_loop state legal); [by intros [= _ ->]|].
  intros H. by apply choice_inv in H as (_ & ? & ?).
Qed.

Lemma rollout_inv fuel : ∀ state (w : world) s w',
  rollout rnd fuel state w = Ret (s, w') →
  heap w' = heap w ∧ clk_pos w' = clk_pos w.
Proof.
  induction fuel as [|fuel IH]; intros state w s w'; simpl.
  - destruct (is_ended state); [by intros [= _ ->]|done].
  - destruct (is_ended state); [by intros [= _ ->]|]. intros H.
    bind_inv H a w1 Ha. apply heuristic_action_choice_inv in Ha as [Hh Hc].
    apply IH in H as [? ?]. split; congruence.
Qed.

(** [expand_leaf] appends the child and rewrites the node it expands. *)
Lemma expand_leaf_inv node state (w : world) c s' w' :
  expand_leaf rnd node state w = Ret ((c, s'), w') →
  ∃ n action rest,
    heap w !! node = Some n ∧ action ∈ untried_actions n ∧
    list_remove action (untried_actions n) = Some rest ∧
    c = length (heap w) ∧ s' = next_state state action ∧
    clk_pos w' = clk_pos w ∧
    heap w' =
      <[node := mkNode (parent n) (parent_action n)
                  (dict_set action c (child_nodes n)) rest (wins n) (visits n)]>
        (heap w)
      ++ [mkNode (Some node) (Some action) [] (legal_actions s') 0 0].
Proof.
  unfold expand_leaf. intros H. bind_inv H n w1 Hn.
  apply get_node_inv in Hn as [-> Hn].
  pose proof (lookup_lt_Some _ _ _ Hn) as Hlt.
  bind_inv H action w1 Hact. apply choice_inv in Hact as (Hin & Hh1 & Hc1).
  bind_inv H child w2 Hnew. injection Hnew as <- <-.
  unfold bind, update_node, get_node in H. simpl in H.
  rewrite Hh1, lookup_app_l, Hn in H by done. simpl in H.
  rewrite list_lookup_insert_eq in H by (rewrite length_app; lia). simpl in H.
  destruct (list_remove action (untried_actions n)) as [rest|] eqn:Hrem; [|done].
  simpl in H. rewrite list_lookup_insert_eq in H by (rewrite length_app; lia).
  injection H as <- <- <-. exists n, action, rest.
  repeat split; [done..|].
  simpl. rewrite list_insert_insert_eq. by rewrite insert_app_l.
Qed.

(** [backpropagate] returns only along a finite chain, within its fuel. *)
Lemma backpropagate_inv fuel : ∀ i won (w w' : world),
  backpropagate fuel (Some i) won w = Ret (tt, w') →
  ∃ l, parent_chain (heap w) i l ∧ length l ≤ fuel ∧ backpropagated l won w w'.
Proof.
  induction fuel as [|fuel IH]; intros i won w w' H; [done|].
  destruct (heap w !! i) as [n|] eqn:Hi.
  2:{ simpl in H. unfold bind, update_node in H. by rewrite Hi in H. }
  assert (∃ l, parent_chain (heap w) i l ∧ length l ≤ S fuel) as (l & Hl & Hlen).
  { rewrite (backpropagate_step _ _ _ _ _ Hi) in H.
    destruct (parent n) as [p|] eqn:Hp.
    - apply IH in H as (l & Hl & Hlen & _). exists (i :: l). split; [|simpl; lia].
      eapply chain_step; [done..|]. eapply parent_chain_shape; [|done].
      simpl. by eapply shape_insert.
    - exists [i]. split; [by eapply chain_root|simpl; lia]. }
  exists l. split; [done|]. split; [done|].
  destruct (backpropagate_chain l i won (S fuel) w Hl Hlen) as (w'' & Hrun & Hb).
  congruence.
Qed.

(** In a tree every chain ends at the root. *)
Lemma parent_chain_to_root r (h : list MCTSNode) i l :
  wf_tree r h → r ≤ i → parent_chain h i l → last l = Some r.
Proof.
  intros [(rn & Hr & Hrp) Hpar _] Hle Hchain. revert Hle.
  induction Hchain as [i n Hi Hp|i n p l Hi Hp Hl IH]; intros Hle.
  - destruct (decide (i = r)) as [->|Hne]; [done|].
    destruct (Hpar i n Hi) as (p & Hp' & _); [lia|congruence].
  - destruct (decide (i = r)) as [->|Hne]; [congruence|].
    destruct (Hpar i n Hi) as (p' & Hp' & Hle' & _); [lia|].
    assert (p' = p) as -> by congruence.
    rewrite last_cons, (IH Hle'). done.
Qed.

(** [backpropagate] from a node of the tree visits the root once. *)
Lemma backpropagate_root r fuel i won (w w' : world) :
  wf_tree r (heap w) → r ≤ i →
  backpropagate fuel (Some i) won w = Ret (tt, w') →
  shape <$> heap w' = shape <$> heap w ∧ clk_pos w' = clk_pos w ∧
  ∃ rn rn', heap w !! r = Some rn ∧ heap w' !! r = Some rn' ∧
            visits rn' = visits rn + 1.
Proof.
  intros Hwf Hle H.
  apply backpropagate_inv in H as (l & Hl & _ & _ & Hc & Hs & Hon & _).
  split; [done|]. split; [done|].
  pose proof (parent_chain_to_root _ _ _ _ Hwf Hle Hl) as Hlast.
  destruct Hwf as [(rn & Hr & _) _ _].
  rewrite last_lookup in Hlast.
  exists rn, (credited (alternate won (pred (length l))) rn).
  split; [done|]. split; [|done]. by eapply Hon.
Qed.

Lemma best_child_elem n state bot (w : world) c w' :
  best_child n state bot w = Ret (c, w') →
  w' = w ∧ ∃ a, (a, c) ∈ child_nodes n.
Proof.
  intros H. apply best_child_in in H as [-> H]. split; [done|].
  unfold values in H.
  apply list_elem_of_fmap in H as ([a c'] & -> & Hin). by exists a.
Qed.

Lemma traverse_nodes_readonly fuel : ∀ node state bot (w : world) r w',
  traverse_nodes fuel node state bot w = Ret (r, w') → w' = w.
Proof.
  induction fuel as [|fuel IH]; intros node state bot w r w' H; [done|].
  simpl in H. bind_inv H n w1 Hn. apply get_node_inv in Hn as [-> Hn].
  destruct (negb (is_ended state) && is_nil (untried_actions n));
    [|by apply ret_inv in H as [_ ->]].
  destruct (is_nil (child_nodes n)); [by apply ret_inv in H as [_ ->]|].
  bind_inv H c w1 Hc. apply best_child_elem in Hc as [-> _].
  bind_inv H cn w1 Hcn. apply get_node_inv in Hcn as [-> Hcn].
  destruct (parent_action cn); [|done]. by eapply IH.
Qed.

(** [traverse_nodes] stays in the tree and keeps node and state in step. *)
Lemma traverse_nodes_in_tree r s0 fuel : ∀ node state bot (w : world) x s w',
  wf_tree r (heap w) → r ≤ node → node_state r s0 (heap w) node state →
  traverse_nodes fuel node state bot w = Ret ((x, s), w') →
  r ≤ x ∧ node_state r s0 (heap w) x s.
Proof.
  induction fuel as [|fuel IH]; intros node state bot w x s w' Hwf Hle Hst H;
    [done|].
  simpl in H. bind_inv H n w1 Hn. apply get_node_inv in Hn as [-> Hn].
  destruct (negb (is_ended state) && is_nil (untried_actions n));
    [|by apply ret_inv in H as [[= -> ->] _]].
  destruct (is_nil (child_nodes n)); [by apply ret_inv in H as [[= -> ->] _]|].
  bind_inv H c w1 Hc. apply best_child_elem in Hc as [-> [a' Hin]].
  destruct (wf_child _ _ Hwf node n a' c Hn Hle Hin) as (cn & Hcn & Hlt & Hp & Hpa).
  bind_inv H cn' w1 Hcn'. apply get_node_inv in Hcn' as [-> Hcn'].
  assert (cn' = cn) as -> by congruence. rewrite Hpa in H.
  eapply IH in H; [done|done|lia|]. by eapply state_child.
Qed.

(** The steps of one turn of the loop of [think]. *)
Lemma iteration_inv fuel root_node current_state bot (w w' : world) :
  iteration rnd fuel root_node current_state bot w = Ret (tt, w') →
  ∃ x0 s0 x s w1 w2 won,
    traverse_nodes fuel root_node current_state bot w = Ret ((x0, s0), w) ∧
    (if is_ended s0 then x = x0 ∧ s = s0 ∧ w1 = w
     else expand_leaf rnd x0 s0 w = Ret ((x, s), w1)) ∧
    heap w2 = heap w1 ∧ clk_pos w2 = clk_pos w1 ∧
    backpropagate fuel (Some x) won w2 = Ret (tt, w').
Proof.
  unfold iteration. intros H. bind_inv H r0 w0 Htr. destruct r0 as [x0 s0].
  pose proof (traverse_nodes_readonly _ _ _ _ _ _ _ Htr) as ->.
  bind_inv H r1 w1 Hex. destruct r1 as [x s].
  bind_inv H end_state w2 Hroll. apply rollout_inv in Hroll as [Hh Hc].
  bind_inv H won w3 Hwin. apply is_win_inv in Hwin as ->.
  exists x0, s0, x, s, w1, w2, won. split; [done|]. split; [|done].
  destruct (is_ended s0); simpl in Hex; [|done].
  by apply ret_inv in Hex as [[= -> ->] ->].
Qed.

(** *** Expansion keeps the tree a tree *)

Section Expanded.
Variables (h : list MCTSNode) (node : nat) (n : MCTSNode).
Variables (action : Action) (rest : list Action) (s' : State).
Hypothesis Hnode : h !! node = Some n.

Lemma expanded_lookup_node : expanded h node n action rest s' !! node = Some (expanded_node h n action rest).
Proof.
  pose proof (lookup_lt_Some _ _ _ Hnode) as Hlt. unfold expanded.
  rewrite lookup_app_l by by rewrite length_insert.
  by apply list_lookup_insert_eq.
Qed.

Lemma expanded_lookup_other i : i ≠ node → i < length h → expanded h node n action rest s' !! i = h !! i.
Proof.
  intros Hne Hlt. unfold expanded.
  rewrite lookup_app_l by by rewrite length_insert.
  by apply list_lookup_insert_ne.
Qed.

Lemma expanded_lookup_new : expanded h node n action rest s' !! length h = Some (new_child node action s').
Proof.
  unfold expanded. rewrite lookup_app_r by by rewrite length_insert.
  by rewrite length_insert, Nat.sub_diag.
Qed.

Lemma expanded_lookup i m :
  expanded h node n action rest s' !! i = Some m →
  (i = node ∧ m = expanded_node h n action rest) ∨ (i ≠ node ∧ h !! i = Some m) ∨
  (i = length h ∧ m = new_child node action s').
Proof.
  intros Hi. pose proof (lookup_lt_Some _ _ _ Hi) as Hlt.
  unfold expanded in Hlt. rewrite length_app, length_insert in Hlt.
  simpl in Hlt. destruct (decide (i = node)) as [->|Hne].
  - left. split; [done|]. rewrite expanded_lookup_node in Hi. congruence.
  - right. destruct (decide (i = length h)) as [->|Hne'].
    + right. split; [done|]. rewrite expanded_lookup_new in Hi. congruence.
    + left. split; [done|]. rewrite <-expanded_lookup_other; [done..|lia].
Qed.

Lemma expanded_extends : extends h (expanded h node n action rest s').
Proof.
  intros i m Hi. pose proof (lookup_lt_Some _ _ _ Hi) as Hlt.
  destruct (decide (i = node)) as [->|Hne].
  - exists (expanded_node h n action rest). split; [apply expanded_lookup_node|].
    assert (m = n) as -> by congruence. done.
  - exists m. by rewrite expanded_lookup_other.
Qed.

Lemma expanded_visits i m :
  h !! i = Some m → ∃ m', expanded h node n action rest s' !! i = Some m' ∧ visits m' = visits m.
Proof.
  intros Hi. pose proof (lookup_lt_Some _ _ _ Hi) as Hlt.
  destruct (decide (i = node)) as [->|Hne].
  - exists (expanded_node h n action rest). split; [apply expanded_lookup_node|].
    assert (m = n) as -> by congruence. done.
  - exists m. by rewrite expanded_lookup_other.
Qed.

Lemma expanded_wf r : wf_tree r h → r ≤ node → wf_tree r (expanded h node n action rest s').
Proof.
  intros Hwf Hle. pose proof (lookup_lt_Some _ _ _ Hnode) as Hlt. split.
  - destruct (wf_root _ _ Hwf) as (rn & Hr & Hrp).
    destruct (expanded_extends _ _ Hr) as (rn' & Hr' & Hp' & _).
    exists rn'. split; [done|congruence].
  - intros i m Hi Hri.
    destruct (expanded_lookup _ _ Hi) as [[-> ->]|[[Hne Hi']|[-> ->]]].
    + by apply (wf_parent _ _ Hwf node n).
    + by apply (wf_parent _ _ Hwf i m).
    + exists node. split; [done|lia].
  - intros i m a c Hi Hri Hin.
    assert (∀ a c, (a, c) ∈ child_nodes n →
              ∃ cn, expanded h node n action rest s' !! c = Some cn ∧ node < c ∧
                    parent cn = Some node ∧ parent_action cn = Some a) as Hold.
    { intros a0 c0 Hin0.
      destruct (wf_child _ _ Hwf node n a0 c0 Hnode Hle Hin0)
        as (cn & Hcn & Hc & Hp & Hpa).
      destruct (expanded_extends _ _ Hcn) as (cn' & Hcn' & Hp' & Hpa').
      exists cn'. repeat split; [done..|congruence|congruence]. }
    destruct (expanded_lookup _ _ Hi) as [[-> ->]|[[Hne Hi']|[-> ->]]].
    + simpl in Hin. apply elem_of_dict_set in Hin as [[= -> ->]|Hin].
      * exists (new_child node action s'). by rewrite expanded_lookup_new.
      * by apply Hold.
    + destruct (wf_child _ _ Hwf i m a c Hi' Hri Hin)
        as (cn & Hcn & Hc & Hp & Hpa).
      destruct (expanded_extends _ _ Hcn) as (cn' & Hcn' & Hp' & Hpa').
      exists cn'. repeat split; [done..|congruence|congruence].
    + simpl in Hin. by apply elem_of_nil in Hin.
Qed.
End Expanded.

Lemma expand_leaf_expanded node state (w : world) c s' w' :
  expand_leaf rnd node state w = Ret ((c, s'), w') →
  ∃ n action rest,
    heap w !! node = Some n ∧ action ∈ untried_actions n ∧
    list_remove action (untried_actions n) = Some rest ∧
    c = length (heap w) ∧ s' = next_state state action ∧
    clk_pos w' = clk_pos w ∧
    heap w' = expanded (heap w) node n action rest s'.
Proof.
  intros H. apply expand_leaf_inv in H
    as (n & action & rest & Hn & Hin & Hrem & -> & -> & Hc & Hh).
  by exists n, action, rest.
Qed.

(** *** One turn of the loop visits the root once *)

Lemma iteration_root_visit fuel r current_state bot (w w' : world) :
  wf_tree r (heap w) →
  iteration rnd fuel r current_state bot w = Ret (tt, w') →
  wf_tree r (heap w') ∧ clk_pos w' = clk_pos w ∧
  ∃ v, visits_at w r = Some v ∧ visits_at w' r = Some (v + 1).
Proof.
  intros Hwf H.
  apply iteration_inv in H as (x0 & s0 & x & s & w1 & w2 & won & Htr & Hex & Hh & Hc & Hbp).
  destruct (wf_root _ _ Hwf) as (rn & Hr & Hrp).
  assert (node_state r current_state (heap w) r current_state) as Hst
    by by eapply state_root.
  destruct (traverse_nodes_in_tree _ _ _ _ _ _ _ _ _ _ Hwf (Nat.le_refl r) Hst Htr)
    as [Hle0 Hst0].
  assert (wf_tree r (heap w1) ∧ r ≤ x ∧ clk_pos w1 = clk_pos w ∧
          ∃ rn1, heap w1 !! r = Some rn1 ∧ visits rn1 = visits rn)
    as (Hwf1 & Hle & Hc1 & rn1 & Hr1 & Hv1).
  { destruct (is_ended s0).
    - destruct Hex as (-> & -> & ->). eauto 10.
    - apply expand_leaf_expanded in Hex
        as (n & action & rest & Hn & _ & _ & -> & _ & Hc1 & Hh1).
      rewrite Hh1. split; [by apply expanded_wf|].
      split; [apply lookup_lt_Some in Hn; lia|]. split; [done|].
      by apply expanded_visits. }
  rewrite <-Hh in Hwf1, Hr1.
  destruct (backpropagate_root _ _ _ _ _ _ Hwf1 Hle Hbp)
    as (Hs & Hc2 & rn2 & rn' & Hr2 & Hr' & Hv).
  split; [by eapply wf_tree_shape|]. split; [congruence|].
  exists (visits rn). unfold visits_at. rewrite Hr, Hr'. simpl.
  split; [done|]. f_equal. assert (rn2 = rn1) as -> by congruence. lia.
Qed.

(** *** The loop of [think] *)

(** The loop runs [k] times when the first [k] readings of the clock
    are within the limit and the next one is not; each turn leaves the
    tree a tree and visits its root once. *)
Lemma search_loop_inv fuel inner start limit r current_state bot :
  ∀ (w : world) k w',
  wf_tree r (heap w) →
  search_loop rnd clk fuel inner start limit r current_state bot w = Ret (k, w') →
  wf_tree r (heap w') ∧
  clk_pos w' = clk_pos w + k + 1 ∧
  (∀ j, j < k → sec_lt (sec_sub (clk (clk_pos w + j)) start) limit = true) ∧
  sec_lt (sec_sub (clk (clk_pos w + k)) start) limit = false ∧
  (k = 0 → heap w' = heap w) ∧
  ∃ v, visits_at w r = Some v ∧ visits_at w' r = Some (v + k).
Proof.
  induction fuel as [|fuel IH]; intros w k w' Hwf H; [done|].
  simpl in H. bind_inv H now w1 Hnow. injection Hnow as <- <-.
  destruct (sec_lt _ _) eqn:Hlt.
  - bind_inv H u w2 Hit. destruct u.
    apply iteration_root_visit in Hit as (Hwf2 & Hc2 & v & Hv & Hv2); [|done].
    bind_inv H k' w3 Hloop. apply ret_inv in H as [-> ->].
    apply IH in Hloop as (Hwf3 & Hc3 & Hin & Hout & _ & v' & Hv' & Hv3); [|done].
    simpl in Hc2. rewrite Hc2 in Hc3, Hin, Hout.
    split; [exact Hwf3|]. split; [lia|]. split; [|split; [|split]].
    + intros [|j] Hj; [by rewrite Nat.add_0_r|].
      replace (clk_pos w + S j) with (S (clk_pos w) + j) by lia.
      apply Hin. lia.
    + by replace (clk_pos w + S k') with (S (clk_pos w) + k') by lia.
    + done.
    + exists v. split; [done|]. rewrite Hv3.
      assert (v' = v + 1) as -> by congruence. f_equal. lia.
  - apply ret_inv in H as [-> ->]. simpl.
    split; [done|]. split; [lia|]. split; [lia|].
    split; [by rewrite Nat.add_0_r|]. split; [done|].
    destruct (wf_root _ _ Hwf) as (rn & Hr & _).
    exists (visits rn). unfold visits_at. simpl. rewrite Hr. simpl.
    split; [done|]. f_equal. lia.
Qed.

Lemma fresh_root_wf (h : list MCTSNode) actions :
  wf_tree (length h) (h ++ [mkNode None None [] actions 0 0]).
Proof.
  assert (∀ i m, (h ++ [mkNode None None [] actions 0 0]) !! i = Some m →
            length h ≤ i → i = length h ∧ m = mkNode None None [] actions 0 0)
    as Hlook.
  { intros i m Hi Hle. pose proof (lookup_lt_Some _ _ _ Hi) as Hlt.
    rewrite length_app in Hlt. simpl in Hlt.
    assert (i = length h) as -> by lia. split; [done|].
    rewrite lookup_app_r, Nat.sub_diag in Hi by done. by injection Hi. }
  split.
  - exists (mkNode None None [] actions 0 0). split; [|done].
    by rewrite lookup_app_r, Nat.sub_diag.
  - intros i m Hi Hlt. destruct (Hlook i m Hi) as [-> _]; lia.
  - intros i m a c Hi Hle Hin. destruct (Hlook i m Hi Hle) as [-> ->].
    by apply elem_of_nil in Hin.
Qed.

(** The steps of [think]. *)
Lemma think_counted_inv fuel current_state limit (w : world) action k w' :
  think_counted rnd clk fuel current_state limit w = Ret ((action, k), w') →
  let r := length (heap w) in
  let w1 := World (heap w ++ [mkNode None None [] (legal_actions current_state) 0 0])
              (rnd_pos w) (S (clk_pos w)) in
  search_loop rnd clk fuel fuel (clk (clk_pos w)) limit r current_state
    (current_player current_state) w1 = Ret (k, w') ∧
  get_best_action r w' = Ret (action, w').
Proof.
  unfold think_counted. intros H.
  bind_inv H root w0 Hroot. injection Hroot as <- <-.
  bind_inv H start w1 Hstart. injection Hstart as <- <-. simpl in H.
  bind_inv H k' w2 Hloop. bind_inv H best w3 Hbest.
  apply ret_inv in H as [[= <- <-] ->].
  pose proof Hbest as [-> _]%get_best_action_inv. done.
Qed.

(** C3. Every turn of the loop of [think] backpropagates once from a
    node of the tree and so adds exactly one visit to the root; when
    [think] returns after [N] turns, the root it created has [N]
    visits, and [N] is at least 1. *)
Theorem root_visits_count_iterations :
  (∀ fuel r current_state bot (w w' : world),
     wf_tree r (heap w) →
     iteration rnd fuel r current_state bot w = Ret (tt, w') →
     ∃ v, visits_at w r = Some v ∧ visits_at w' r = Some (v + 1)) ∧
  (∀ fuel current_state time_limit (w : world) action N w',
     think_counted rnd clk fuel current_state time_limit w
       = Ret ((action, N), w') →
     visits_at w' (length (heap w)) = Some N ∧ 1 ≤ N).
Proof.
  split.
  - intros fuel r s bot w w' Hwf H.
    by apply iteration_root_visit in H as (_ & _ & H).
  - intros fuel s limit w action N w' H.
    apply think_counted_inv in H as [Hloop Hbest].
    apply search_loop_inv in Hloop as (_ & _ & _ & _ & Hzero & v & Hv & Hv');
      [|apply fresh_root_wf].
    unfold visits_at in Hv. simpl in Hv.
    rewrite lookup_app_r, Nat.sub_diag in Hv by done. injection Hv as <-.
    split; [done|]. destruct N as [|N]; [|lia]. exfalso.
    unfold get_best_action, bind, get_node in Hbest.
    rewrite (Hzero eq_refl) in Hbest. simpl in Hbest.
    by rewrite lookup_app_r, Nat.sub_diag in Hbest.
Qed.

(** *** Children and untried actions *)

Lemma partitioned_shape r s0 (h h' : list MCTSNode) :
  shape <$> h = shape <$> h' → partitioned r s0 h → partitioned r s0 h'.
Proof.
  intros Hs Hpart i n' Hle Hi'.
  assert (shape <$> h' = shape <$> h) as Hs' by done.
  destruct (shape_lookup _ _ _ _ Hs' Hi') as (n & Hi & [= _ _ Hc Hu]).
  destruct (Hpart i n Hle Hi) as (s & Hst & Hnd & Hperm).
  exists s. rewrite <-Hc, <-Hu. split; [|done].
  eapply node_state_extends; [|done]. by apply shape_extends.
Qed.

Section Partition.
(** The board lists each legal action of a state once. *)
Hypothesis legal_actions_NoDup : ∀ s : State, NoDup (legal_actions s).

Lemma fresh_root_partitioned (h : list MCTSNode) s0 :
  partitioned (length h) s0 (h ++ [mkNode None None [] (legal_actions s0) 0 0]).
Proof.
  intros i m Hle Hi. pose proof (lookup_lt_Some _ _ _ Hi) as Hlt.
  rewrite length_app in Hlt. simpl in Hlt. assert (i = length h) as -> by lia.
  pose proof Hi as Hi'. rewrite lookup_app_r, Nat.sub_diag in Hi by done.
  injection Hi as <-. exists s0. split; [by eapply state_root|]. simpl.
  split; [apply legal_actions_NoDup|done].
Qed.

Lemma expanded_partitioned r s0 (h : list MCTSNode) node n action rest state :
  h !! node = Some n → wf_tree r h → partitioned r s0 h → r ≤ node →
  node_state r s0 h node state →
  action ∈ untried_actions n →
  list_remove action (untried_actions n) = Some rest →
  (action ∉ keys (child_nodes n)) ∧
  partitioned r s0 (expanded h node n action rest (next_state state action)).
Proof.
  intros Hn Hwf Hpart Hle Hst Hin Hrem.
  destruct (Hpart node n Hle Hn) as (s & Hs & Hnd & Hperm).
  assert (s = state) as -> by by eapply node_state_functional.
  assert (action ∉ keys (child_nodes n)) as Hfresh.
  { apply NoDup_app in Hnd as (_ & Hdisj & _). intros Hk. by apply (Hdisj action). }
  split; [done|].
  pose proof (expanded_extends h node n action rest (next_state state action) Hn)
    as Hext.
  apply list_remove_Some in Hrem.
  intros i m Hri Hi.
  destruct (expanded_lookup _ _ _ _ _ _ Hn _ _ Hi) as [[-> ->]|[[Hne Hi']|[-> ->]]].
  - exists state. split; [by eapply node_state_extends|]. simpl.
    rewrite dict_set_fresh by done. unfold keys. rewrite fmap_app. simpl.
    assert ((child_nodes n).*1 ++ [action] ++ rest
              ≡ₚ keys (child_nodes n) ++ untried_actions n) as Hp.
    { unfold keys. by rewrite Hrem. }
    rewrite <-app_assoc. split; [by rewrite Hp|by rewrite Hp].
  - destruct (Hpart i m Hri Hi') as (s & Hs' & Hnd' & Hperm').
    exists s. split; [by eapply node_state_extends|done].
  - exists (next_state state action). split; [|split; [apply legal_actions_NoDup|done]].
    eapply state_child; [by apply expanded_lookup_new|done|done|].
    by eapply node_state_extends.
Qed.

Lemma iteration_partitioned fuel r current_state bot (w w' : world) :
  wf_tree r (heap w) → partitioned r current_state (heap w) →
  iteration rnd fuel r current_state bot w = Ret (tt, w') →
  partitioned r current_state (heap w').
Proof.
  intros Hwf Hpart H.
  apply iteration_inv in H
    as (x0 & s0 & x & s & w1 & w2 & won & Htr & Hex & Hh & Hc & Hbp).
  destruct (wf_root _ _ Hwf) as (rn & Hr & Hrp).
  assert (node_state r current_state (heap w) r current_state) as Hst
    by by eapply state_root.
  destruct (traverse_nodes_in_tree _ _ _ _ _ _ _ _ _ _ Hwf (Nat.le_refl r) Hst Htr)
    as [Hle0 Hst0].
  assert (partitioned r current_state (heap w1)) as Hpart1.
  { destruct (is_ended s0).
    - by destruct Hex as (-> & -> & ->).
    - apply expand_leaf_expanded in Hex
        as (n & action & rest & Hn & Hin & Hrem & -> & -> & Hc1 & Hh1).
      rewrite Hh1. by eapply expanded_partitioned. }
  apply backpropagate_inv in Hbp as (l & _ & _ & _ & _ & Hs & _).
  eapply partitioned_shape; [|done]. congruence.
Qed.

Lemma search_loop_partitioned fuel inner start limit r current_state bot :
  ∀ (w : world) k w',
  wf_tree r (heap w) → partitioned r current_state (heap w) →
  search_loop rnd clk fuel inner start limit r current_state bot w = Ret (k, w') →
  partitioned r current_state (heap w').
Proof.
  induction fuel as [|fuel IH]; intros w k w' Hwf Hpart H; [done|].
  simpl in H. bind_inv H now w1 Hnow. injection Hnow as <- <-.
  destruct (sec_lt _ _) eqn:Hlt.
  - bind_inv H u w2 Hit. destruct u.
    assert (wf_tree r (heap w2)) as Hwf2.
    { by eapply iteration_root_visit in Hit as (? & _). }
    apply iteration_partitioned in Hit; [|done..].
    bind_inv H k' w3 Hloop. apply ret_inv in H as [-> ->]. by eapply IH.
  - by apply ret_inv in H as [-> ->].
Qed.

(** C7, for a board that lists each legal action of a state once.
    A new node has no children and the legal actions of its state as
    [untried_actions]; [expand_leaf] on a node of the tree moves one
    action from [untried_actions] to a new last entry of
    [child_nodes], under a key that was not there; and in every node
    of the tree [think] leaves behind, the keys of [child_nodes] and
    [untried_actions] together list the legal actions of the state of
    the node, each once. *)
Theorem children_and_untried_partition_legal_actions :
  (∀ p a s (w : world),
     ∃ w' n, new_node p a (legal_actions s) w = Ret (length (heap w), w') ∧
       heap w' !! length (heap w) = Some n ∧
       child_nodes n = [] ∧ untried_actions n = legal_actions s ∧
       NoDup (keys (child_nodes n) ++ untried_actions n)) ∧
  (∀ r s0 node state (w : world) c s' w',
     wf_tree r (heap w) → partitioned r s0 (heap w) → r ≤ node →
     node_state r s0 (heap w) node state →
     expand_leaf rnd node state w = Ret ((c, s'), w') →
     wf_tree r (heap w') ∧ partitioned r s0 (heap w') ∧
     ∃ n n' action,
       heap w !! node = Some n ∧ heap w' !! node = Some n' ∧
       action ∈ untried_actions n ∧ (action ∉ keys (child_nodes n)) ∧
       untried_actions n ≡ₚ action :: untried_actions n' ∧
       child_nodes n' = child_nodes n ++ [(action, c)] ∧
       s' = next_state state action) ∧
  (∀ fuel current_state time_limit (w : world) action N w',
     think_counted rnd clk fuel current_state time_limit w
       = Ret ((action, N), w') →
     wf_tree (length (heap w)) (heap w') ∧
     partitioned (length (heap w)) current_state (heap w')).
Proof.
  split; [|split].
  - intros p a s w. eexists _, _. split; [done|]. simpl.
    rewrite lookup_app_r, Nat.sub_diag by done. split; [done|].
    split; [done|]. split; [done|]. apply legal_actions_NoDup.
  - intros r s0 node state w c s' w' Hwf Hpart Hle Hst H.
    apply expand_leaf_expanded in H
      as (n & action & rest & Hn & Hin & Hrem & -> & -> & Hc1 & Hh1).
    destruct (expanded_partitioned _ _ _ _ _ _ _ _ Hn Hwf Hpart Hle Hst Hin Hrem)
      as [Hfresh Hpart'].
    rewrite Hh1. split; [by apply expanded_wf|]. split; [done|].
    eexists n, _, action. split; [done|].
    split; [by apply expanded_lookup_node|]. simpl.
    split; [done|]. split; [done|]. split; [by apply list_remove_Some|].
    split; [by apply dict_set_fresh|done].
  - intros fuel s limit w action N w' H.
    apply think_counted_inv in H as [Hloop _].
    pose proof Hloop as (Hwf & _)%search_loop_inv; [|apply fresh_root_wf].
    split; [done|].
    eapply search_loop_partitioned in Hloop;
      [done|apply fresh_root_wf|apply fresh_root_partitioned].
Qed.
End Partition.
End Tree.

(** * Further properties of the module *)

(** ** The steps of one turn, one by one *)

Section Steps.
Context `{board : Board} `{scores : Scores}.
Variable rnd : nat → nat.

Lemma traverse_nodes_stop_inv fuel : ∀ node state bot (w : world) x s w',
  traverse_nodes fuel node state bot w = Ret ((x, s), w') →
  w' = w ∧
  ∃ n, heap w !! x = Some n ∧
       (is_ended s = true ∨ untried_actions n ≠ [] ∨ child_nodes n = []).
Proof.
  induction fuel as [|fuel IH]; intros node state bot w x s w' H; [done|].
  simpl in H. bind_inv H n w1 Hn. apply get_node_inv in Hn as [-> Hn].
  destruct (is_ended state) eqn:Hend; simpl in H.
  { apply ret_inv in H as [[= -> ->] ->]. eauto. }
  destruct (untried_actions n) as [|a l] eqn:Hun; simpl in H.
  2:{ apply ret_inv in H as [[= -> ->] ->]. split; [done|]. exists n.
      split; [done|]. right. left. by rewrite Hun. }
  destruct (child_nodes n) as [|e d] eqn:Hch; simpl in H.
  { apply ret_inv in H as [[= -> ->] ->]. eauto 6. }
  bind_inv H c w1 Hc. apply best_child_elem in Hc as [-> _].
  bind_inv H cn w1 Hcn. apply get_node_inv in Hcn as [-> Hcn].
  destruct (parent_action cn); [|done]. by eapply IH.
Qed.

(** X1. [traverse_nodes] changes nothing in the world, and the node it
    returns is on the heap and is one the loop cannot go on from: the
    game is over at its state, or it has an action left to try, or it
    has no children. *)
Theorem traverse_nodes_stops fuel node state bot (w : world) x s w' :
  traverse_nodes fuel node state bot w = Ret ((x, s), w') →
  w' = w ∧
  ∃ n, heap w !! x = Some n ∧
       (is_ended s = true ∨ untried_actions n ≠ [] ∨ child_nodes n = []).
Proof. apply traverse_nodes_stop_inv. Qed.

Lemma winning_loop_elem state legal a :
  winning_loop state legal = Some a → a ∈ legal.
Proof.
  induction legal as [|b l IH]; [done|]. simpl.
  destruct (bool_decide _).
  - intros [= ->]. apply elem_of_cons. by left.
  - intros H. apply elem_of_cons. right. by apply IH.
Qed.

Lemma choice_nonempty {A} (seq : list A) (w : world) :
  seq ≠ [] →
  ∃ x, seq !! (rnd (rnd_pos w) `mod` length seq) = Some x ∧
       choice rnd seq w = Ret (x, World (heap w) (S (rnd_pos w)) (clk_pos w)).
Proof.
  intros Hne. unfold choice.
  destruct (lookup_lt_is_Some_2 seq (rnd (rnd_pos w) `mod` length seq)) as [x Hx].
  { apply Nat.mod_upper_bound. by destruct seq. }
  exists x. by rewrite Hx.
Qed.

Lemma heuristic_action_choice_elem state legal (w : world) a w' :
  heuristic_action_choice rnd state legal w = Ret (a, w') → a ∈ legal.
Proof.
  rewrite heuristic_action_choice_cases.
  destruct (winning_loop state legal) as [b|] eqn:E.
  - intros [= <- _]. by eapply winning_loop_elem.
  - intros H. by apply choice_inv in H as (? & _).
Qed.

Lemma heuristic_action_choice_returns state legal (w : world) :
  legal ≠ [] → ∃ a w', heuristic_action_choice rnd state legal w = Ret (a, w').
Proof.
  intros Hne. rewrite heuristic_action_choice_cases.
  destruct (winning_loop state legal) as [b|]; [by eauto|].
  destruct (choice_nonempty legal w Hne) as (x & _ & Hx). eauto.
Qed.

(** X2. Whatever [heuristic_action_choice] returns is one of the legal
    actions it was given; on an empty list it raises [IndexError], and
    on any other list it returns. *)
Theorem heuristic_action_choice_legal state :
  (∀ legal (w : world) a w',
     heuristic_action_choice rnd state legal w = Ret (a, w') → a ∈ legal) ∧
  (∀ w : world, heuristic_action_choice rnd state [] w = Raise IndexError) ∧
  (∀ legal (w : world), legal ≠ [] →
     ∃ a w', heuristic_action_choice rnd state legal w = Ret (a, w')).
Proof.
  split; [|split].
  - intros legal w a w'. apply heuristic_action_choice_elem.
  - intros w. by rewrite heuristic_action_choice_cases.
  - intros legal w. apply heuristic_action_choice_returns.
Qed.

Lemma rollout_game_over fuel state (w : world) :
  is_ended state = true → rollout rnd fuel state w = Ret (state, w).
Proof. intros Hend. destruct fuel; simpl; by rewrite Hend. Qed.

(** X3. The state [rollout] returns is one where the game is over, got
    from the state it was given by legal actions only; the heap and the
    clock are as before.  On a state where the game is over already it
    returns that state and draws nothing. *)
Theorem rollout_ends_game :
  (∀ fuel state (w : world) s' w',
     rollout rnd fuel state w = Ret (s', w') →
     is_ended s' = true ∧ reaches state s' ∧
     heap w' = heap w ∧ clk_pos w' = clk_pos w) ∧
  (∀ fuel state (w : world),
     is_ended state = true → rollout rnd fuel state w = Ret (state, w)).
Proof.
  split.
  - induction fuel as [|fuel IH]; intros state w s' w'; simpl;
      destruct (is_ended state) eqn:Hend; try done.
    + intros [= <- <-]. split; [done|]. split; [apply reaches_here|done].
    + intros [= <- <-]. split; [done|]. split; [apply reaches_here|done].
    + intros H. bind_inv H a w1 Ha.
      pose proof (heuristic_action_choice_elem _ _ _ _ _ Ha) as Hin.
      apply heuristic_action_choice_inv in Ha as [Hh Hc].
      apply IH in H as (He & Hr & Hh' & Hc').
      split; [done|]. split; [by eapply reaches_step|]. split; congruence.
  - intros fuel state w. apply rollout_game_over.
Qed.

Lemma expand_leaf_returns node state (w : world) n :
  heap w !! node = Some n → untried_actions n ≠ [] →
  ∃ action rest,
    untried_actions n !! (rnd (rnd_pos w) `mod` length (untried_actions n))
      = Some action ∧
    list_remove action (untried_actions n) = Some rest ∧
    expand_leaf rnd node state w
    = Ret ((length (heap w), next_state state action),
           World (expanded (heap w) node n action rest (next_state state action))
                 (S (rnd_pos w)) (clk_pos w)).
Proof.
  intros Hn Hun.
  pose proof (lookup_lt_Some _ _ _ Hn) as Hlt.
  destruct (choice_nonempty (untried_actions n) w Hun) as (action & Hact & Hch).
  destruct (list_remove_elem_of action (untried_actions n)) as [rest Hrem].
  { by eapply list_elem_of_lookup_2. }
  exists action, rest. split; [done|]. split; [done|].
  unfold expand_leaf.
  rewrite (bind_ret_l _ _ _ _ _ (get_node_lookup _ _ _ Hn)).
  rewrite (bind_ret_l _ _ _ _ _ Hch).
  unfold bind, new_node, update_node, get_node. simpl.
  rewrite lookup_app_l, Hn by done. simpl.
  rewrite list_lookup_insert_eq by (rewrite length_app; lia). simpl.
  rewrite Hrem. simpl.
  rewrite list_lookup_insert_eq by (rewrite length_app; lia). simpl.
  unfold ret, expanded, expanded_node, new_child.
  by rewrite list_insert_insert_eq, insert_app_l.
Qed.

(** X4. On a node with nothing left to try [expand_leaf] raises
    [IndexError]; on any other node of the heap it returns: it draws one
    number, which picks the action among [untried_actions], the child is
    the next cell of the heap, and [list.remove] finds the action. *)
Theorem expand_leaf_edge :
  (∀ node state (w : world) n,
     heap w !! node = Some n → untried_actions n = [] →
     expand_leaf rnd node state w = Raise IndexError) ∧
  (∀ node state (w : world) n,
     heap w !! node = Some n → untried_actions n ≠ [] →
     ∃ action rest,
       untried_actions n !! (rnd (rnd_pos w) `mod` length (untried_actions n))
         = Some action ∧
       list_remove action (untried_actions n) = Some rest ∧
       expand_leaf rnd node state w
       = Ret ((length (heap w), next_state state action),
              World (expanded (heap w) node n action rest (next_state state action))
                    (S (rnd_pos w)) (clk_pos w))).
Proof.
  split.
  - intros node state w n Hn Hun. unfold expand_leaf.
    rewrite (bind_ret_l _ _ _ _ _ (get_node_lookup _ _ _ Hn)). by rewrite Hun.
  - intros node state w n. apply expand_leaf_returns.
Qed.
End Steps.

(** ** More on backpropagation *)

Section Credit.
Context `{board : Board}.

Lemma alternate_negb won k : alternate (negb won) k = negb (alternate won k).
Proof. revert won. induction k as [|k IH]; intros won; [done|]. simpl. apply IH. Qed.

Lemma parent_chain_head (h : list MCTSNode) i l :
  parent_chain h i l → l !! 0 = Some i.
Proof. by destruct 1. Qed.

Lemma parent_chain_lookup (h : list MCTSNode) i l j :
  parent_chain h i l → j ∈ l → is_Some (h !! j).
Proof.
  induction 1 as [i n Hi Hp|i n p l Hi Hp Hl IH].
  - intros ->%list_elem_of_singleton. by eexists.
  - intros [->|Hj]%elem_of_cons; [by eexists|by apply IH].
Qed.

(** X5. Two calls of [backpropagate] from the same node, one with [won]
    and one with its negation, return and leave every node of the chain
    with two more visits and one more win; the rest of the heap and the
    links of the tree are as before. *)
Theorem backpropagate_win_then_loss i l won fuel (w : world) :
  parent_chain (heap w) i l → length l ≤ fuel →
  ∃ w1 w2,
    backpropagate fuel (Some i) won w = Ret (tt, w1) ∧
    backpropagate fuel (Some i) (negb won) w1 = Ret (tt, w2) ∧
    (∀ j n, j ∈ l → heap w !! j = Some n →
       ∃ n', heap w2 !! j = Some n' ∧
         visits n' = visits n + 2 ∧ wins n' = wins n + 1 ∧ shape n' = shape n) ∧
    (∀ j, j ∉ l → heap w2 !! j = heap w !! j).
Proof.
  intros Hchain Hfuel.
  destruct (backpropagate_chain l i won fuel w Hchain Hfuel)
    as (w1 & Hrun1 & _ & _ & Hs1 & Hon1 & Hoff1).
  assert (parent_chain (heap w1) i l) as Hchain1
    by by eapply parent_chain_shape.
  destruct (backpropagate_chain l i (negb won) fuel w1 Hchain1 Hfuel)
    as (w2 & Hrun2 & _ & _ & Hs2 & Hon2 & Hoff2).
  exists w1, w2. split; [done|]. split; [done|]. split.
  - intros j n [k Hk]%list_elem_of_lookup_1 Hj.
    pose proof (Hon1 k j n Hk Hj) as Hj1.
    pose proof (Hon2 k j _ Hk Hj1) as Hj2.
    eexists. split; [exact Hj2|]. rewrite alternate_negb. simpl.
    destruct (alternate won k); simpl; repeat split; lia.
  - intros j Hj. by rewrite Hoff2, Hoff1.
Qed.

(** X6. [backpropagate] comes to an end exactly from the nodes whose
    parent chain is finite: with some fuel it returns if and only if
    following [parent] from the node reaches a node without parent. *)
Theorem backpropagate_returns_iff_chain_finite i won (w : world) :
  (∃ fuel w', backpropagate fuel (Some i) won w = Ret (tt, w')) ↔
  (∃ l, parent_chain (heap w) i l).
Proof.
  split.
  - intros (fuel & w' & H). apply backpropagate_inv in H as (l & Hl & _). eauto.
  - intros (l & Hl).
    destruct (backpropagate_chain l i won (length l) w Hl (Nat.le_refl _))
      as (w' & H & _). eauto.
Qed.
End Credit.

(** ** What a call of [think] keeps *)

Section Search.
Context `{board : Board} `{clock : Clock} `{scores : Scores}.
Variable rnd : nat → nat.
Variable clk : nat → seconds.

Lemma parent_chain_in_tree r (h : list MCTSNode) i l :
  wf_tree r h → r ≤ i → parent_chain h i l → ∀ j, j ∈ l → r ≤ j.
Proof.
  intros Hwf Hle Hchain. revert Hle.
  induction Hchain as [i n Hi Hp|i n p l Hi Hp Hl IH]; intros Hle j.
  - by intros ->%list_elem_of_singleton.
  - intros [->|Hj]%elem_of_cons; [done|]. apply IH; [|done].
    destruct (decide (i = r)) as [->|Hne].
    + destruct (wf_root _ _ Hwf) as (rn & Hr & Hrp). congruence.
    + destruct (wf_parent _ _ Hwf i n Hi) as (p' & Hp' & Hle' & _); [lia|].
      congruence.
Qed.

(** One turn of the loop, as a change of the heap: [traverse_nodes]
    stops at [x0]; unless the game is over there, the heap is expanded
    under [x0]; then the nodes of the chain [l] from the node reached
    are credited, and no other. *)
Lemma iteration_effect fuel r s0 bot (w w' : world) :
  wf_tree r (heap w) →
  iteration rnd fuel r s0 bot w = Ret (tt, w') →
  ∃ x0 st0 x h1 l won,
    traverse_nodes fuel r s0 bot w = Ret ((x0, st0), w) ∧
    r ≤ x0 ∧ node_state r s0 (heap w) x0 st0 ∧
    (if is_ended st0 then x = x0 ∧ h1 = heap w
     else ∃ n action rest,
            heap w !! x0 = Some n ∧ action ∈ untried_actions n ∧
            list_remove action (untried_actions n) = Some rest ∧
            x = length (heap w) ∧
            h1 = expanded (heap w) x0 n action rest (next_state st0 action)) ∧
    wf_tree r h1 ∧ r ≤ x ∧ parent_chain h1 x l ∧ length l ≤ fuel ∧
    shape <$> heap w' = shape <$> h1 ∧
    (∀ k j n, l !! k = Some j → h1 !! j = Some n →
       heap w' !! j = Some (credited (alternate won k) n)) ∧
    (∀ j, j ∉ l → heap w' !! j = h1 !! j).
Proof.
  intros Hwf H.
  apply iteration_inv in H
    as (x0 & st0 & x & st & w1 & w2 & won & Htr & Hex & Hh & Hc & Hbp).
  destruct (wf_root _ _ Hwf) as (rn & Hr & Hrp).
  assert (node_state r s0 (heap w) r s0) as Hst by by eapply state_root.
  destruct (traverse_nodes_in_tree _ _ _ _ _ _ _ _ _ _ Hwf (Nat.le_refl r) Hst Htr)
    as [Hle0 Hst0].
  apply backpropagate_inv in Hbp as (l & Hl & Hlen & _ & _ & Hs & Hon & Hoff).
  rewrite Hh in Hl, Hs, Hon, Hoff.
  exists x0, st0, x, (heap w1), l, won.
  split; [done|]. split; [done|]. split; [done|].
  destruct (is_ended st0).
  - destruct Hex as (-> & -> & ->). split; [done|].
    repeat (split; [done|]). done.
  - apply expand_leaf_expanded in Hex
      as (n & action & rest & Hn & Hin & Hrem & -> & -> & Hc1 & Hh1).
    split; [by exists n, action, rest|]. rewrite Hh1 in *.
    split; [by apply expanded_wf|].
    split; [apply lookup_lt_Some in Hn; lia|].
    repeat (split; [done|]). done.
Qed.

(** What every turn keeps, the loop keeps. *)
Lemma search_loop_invariant (I : nat → list MCTSNode → Prop)
    inner start limit r s0 bot :
  (∀ k (w w' : world),
     wf_tree r (heap w) → I k (heap w) →
     iteration rnd inner r s0 bot w = Ret (tt, w') → I (S k) (heap w')) →
  ∀ fuel k0 (w : world) k w',
    wf_tree r (heap w) → I k0 (heap w) →
    search_loop rnd clk fuel inner start limit r s0 bot w = Ret (k, w') →
    I (k0 + k) (heap w').
Proof.
  intros Hstep. induction fuel as [|fuel IH]; intros k0 w k w' Hwf HI H; [done|].
  simpl in H. bind_inv H now w1 Hnow. injection Hnow as <- <-.
  destruct (sec_lt _ _) eqn:Hlt.
  - bind_inv H u w2 Hit. destruct u.
    assert (wf_tree r (heap w2)) as Hwf2.
    { by eapply iteration_root_visit in Hit as (? & _). }
    apply (Hstep k0) in Hit; [|done..].
    bind_inv H k' w3 Hloop. apply ret_inv in H as [-> ->].
    apply (IH (S k0)) in Hloop; [|done..].
    by replace (k0 + S k') with (S k0 + k') by lia.
  - apply ret_inv in H as [-> ->]. by rewrite Nat.add_0_r.
Qed.

Lemma iteration_stats fuel r s0 bot (w w' : world) :
  wf_tree r (heap w) → stats_ok r (heap w) →
  iteration rnd fuel r s0 bot w = Ret (tt, w') → stats_ok r (heap w').
Proof.
  intros Hwf Hok H.
  apply iteration_effect in H
    as (x0 & st0 & x & h1 & l & won & _ & Hle0 & _ & Hex & _ & _ & Hl & _ & _ & Hon & Hoff);
    [|done].
  assert (∀ j n, r ≤ j → h1 !! j = Some n →
            wins n ≤ visits n ∧ (r < j → j ≠ x → 1 ≤ visits n)) as Hmid.
  { destruct (is_ended st0).
    - destruct Hex as [-> ->]. intros j n Hj Hn.
      destruct (Hok j n Hj Hn) as [? ?]. auto.
    - destruct Hex as (n0 & action & rest & Hn0 & _ & _ & -> & ->).
      intros j n Hj Hn.
      destruct (expanded_lookup _ _ _ _ _ _ Hn0 _ _ Hn) as [[-> ->]|[[Hne Hn']|[-> ->]]].
      + destruct (Hok x0 n0 Hj Hn0) as [? ?]. simpl. auto.
      + destruct (Hok j n Hj Hn') as [? ?]. auto.
      + simpl. split; [lia|]. done. }
  pose proof (parent_chain_head _ _ _ Hl) as Hhead.
  intros j n' Hj Hn'. destruct (decide (j ∈ l)) as [Hin|Hnotin].
  - destruct (parent_chain_lookup _ _ _ _ Hl Hin) as [n Hn].
    apply list_elem_of_lookup_1 in Hin as [k Hk].
    rewrite (Hon k j n Hk Hn) in Hn'. injection Hn' as <-.
    destruct (Hmid j n Hj Hn) as [Hw _]. simpl.
    split; [destruct (alternate won k); simpl; lia|lia].
  - rewrite (Hoff j Hnotin) in Hn'. destruct (Hmid j n' Hj Hn') as [Hw Hv].
    split; [done|]. intros Hlt. apply Hv; [done|]. intros ->.
    apply Hnotin. by eapply list_elem_of_lookup_2.
Qed.

(** X7. In the tree [think] leaves behind no node has more wins than
    visits, and every node but the root has at least one visit: a child
    is credited in the turn that makes it. *)
Theorem think_keeps_statistics fuel current_state time_limit
    (w : world) action N w' :
  think_counted rnd clk fuel current_state time_limit w = Ret ((action, N), w') →
  stats_ok (length (heap w)) (heap w').
Proof.
  intros H. apply think_counted_inv in H as [Hloop _].
  apply (search_loop_invariant (λ _, stats_ok (length (heap w)))
           _ _ _ _ _ _ (λ k w1 w2, iteration_stats _ _ _ _ w1 w2) _ 0)
    in Hloop; [done|apply fresh_root_wf|].
  intros i n Hle Hi. simpl in Hi.
  pose proof (lookup_lt_Some _ _ _ Hi) as Hlt. rewrite length_app in Hlt.
  simpl in Hlt. assert (i = length (heap w)) as -> by lia.
  rewrite lookup_app_r, Nat.sub_diag in Hi by done. injection Hi as <-.
  simpl. split; lia.
Qed.

Lemma iteration_frame fuel r s0 bot (w w' : world) :
  wf_tree r (heap w) →
  iteration rnd fuel r s0 bot w = Ret (tt, w') →
  length (heap w) ≤ length (heap w') ≤ S (length (heap w)) ∧
  ∀ i, i < r → heap w' !! i = heap w !! i.
Proof.
  intros Hwf H.
  apply iteration_effect in H
    as (x0 & st0 & x & h1 & l & won & _ & Hle0 & _ & Hex & Hwf1 & Hle & Hl & _ & Hs & _ & Hoff);
    [|done].
  assert (length (heap w') = length h1) as Hlen.
  { by rewrite <-(length_fmap shape (heap w')), Hs, length_fmap. }
  assert (∀ i, i < r → heap w' !! i = h1 !! i) as Hlow.
  { intros i Hi. apply Hoff. intros Hin.
    pose proof (parent_chain_in_tree _ _ _ _ Hwf1 Hle Hl i Hin). lia. }
  destruct (is_ended st0).
  - destruct Hex as [-> ->]. split; [lia|done].
  - destruct Hex as (n0 & action & rest & Hn0 & _ & _ & -> & ->).
    pose proof (lookup_lt_Some _ _ _ Hn0) as Hlt0.
    split.
    + rewrite Hlen. unfold expanded. rewrite length_app, length_insert. simpl. lia.
    + intros i Hi. rewrite (Hlow i Hi).
      apply expanded_lookup_other; lia.
Qed.

(** X8. A call of [think] that returns after [N] turns has allocated its
    root and at most one node per turn, and has left every node that
    was on the heap before the call as it was. *)
Theorem think_allocates_one_node_per_turn fuel current_state time_limit
    (w : world) action N w' :
  think_counted rnd clk fuel current_state time_limit w = Ret ((action, N), w') →
  S (length (heap w)) ≤ length (heap w') ≤ S (length (heap w)) + N ∧
  ∀ i, i < length (heap w) → heap w' !! i = heap w !! i.
Proof.
  intros H. apply think_counted_inv in H as [Hloop _].
  set (h0 := heap w ++ [mkNode None None [] (legal_actions current_state) 0 0]).
  apply (search_loop_invariant
           (λ k h, (length h0 ≤ length h ≤ length h0 + k) ∧
                   ∀ i, i < length (heap w) → h !! i = h0 !! i)
           _ _ _ _ _ _) with (k0 := 0) in Hloop.
  - destruct Hloop as [Hlen Hlow]. unfold h0 in Hlen.
    rewrite length_app in Hlen. simpl in Hlen. split; [lia|].
    intros i Hi. rewrite (Hlow i Hi). unfold h0. by rewrite lookup_app_l.
  - intros k w1 w2 Hwf [Hlen Hlow] Hit.
    apply iteration_frame in Hit as [Hlen' Hlow']; [|done].
    split; [lia|]. intros i Hi. by rewrite Hlow', Hlow.
  - apply fresh_root_wf.
  - simpl. fold h0. split; [lia|done].
Qed.

Lemma iteration_game_over fuel r s0 bot (w w' : world) :
  is_ended s0 = true → wf_tree r (heap w) →
  iteration rnd fuel r s0 bot w = Ret (tt, w') →
  shape <$> heap w' = shape <$> heap w.
Proof.
  intros Hend Hwf H.
  apply iteration_effect in H
    as (x0 & st0 & x & h1 & l & won & Htr & _ & _ & Hex & _ & _ & _ & _ & Hs & _);
    [|done].
  destruct fuel as [|fuel]; [done|]. simpl in Htr.
  bind_inv Htr n w1 Hn. apply get_node_inv in Hn as [-> Hn].
  rewrite Hend in Htr. simpl in Htr. apply ret_inv in Htr as [[= <- <-] _].
  rewrite Hend in Hex. by destruct Hex as [_ ->].
Qed.

(** X9. Called on a state where the game is over, [think] never returns
    an action, whatever the budget: no turn of the loop gives the root a
    child, and [get_best_action] has nothing to choose from. *)
Theorem think_game_over_returns_nothing fuel current_state time_limit
    (w : world) :
  is_ended current_state = true →
  ∀ r, think rnd clk fuel current_state time_limit w ≠ Ret r.
Proof.
  intros Hend [action w'] H. unfold think in H. bind_inv H r w1 Hc.
  destruct r as [a N]. apply ret_inv in H as [_ ->].
  apply think_counted_inv in Hc as [Hloop Hbest].
  apply (search_loop_invariant
           (λ _ h, ∃ n, h !! length (heap w) = Some n ∧ child_nodes n = [])
           _ _ _ _ _ _) with (k0 := 0) in Hloop.
  - destruct Hloop as (n & Hn & Hch).
    unfold get_best_action, bind, get_node in Hbest. rewrite Hn in Hbest.
    simpl in Hbest. by rewrite Hch in Hbest.
  - intros k wa wb Hwf (n & Hn & Hch) Hit.
    apply iteration_game_over in Hit; [|done..].
    assert (shape <$> heap wa = shape <$> heap wb) as Hs by done.
    destruct (shape_lookup _ _ _ _ Hs Hn) as (n' & Hn' & [= _ _ Hc' _]).
    exists n'. split; [done|congruence].
  - apply fresh_root_wf.
  - simpl. eexists. by rewrite lookup_app_r, Nat.sub_diag.
Qed.

(** X10. Called on a state where the game is not over and the board
    lists no legal action, [think] raises [IndexError] as soon as the
    budget lets one turn start, that is when the test of the loop,
    [time() - start_time < time_limit] as the arithmetic of the clock
    computes it, holds of the first two readings: [expand_leaf] draws
    from the empty [untried_actions] of the root.  When the test fails
    no turn starts and [max()] raises [ValueError] on the empty dict of
    the root. *)
Theorem think_no_legal_action_raises fuel current_state time_limit
    (w : world) :
  is_ended current_state = false → legal_actions current_state = [] →
  think rnd clk (S fuel) current_state time_limit w
  = if sec_lt (sec_sub (clk (S (clk_pos w))) (clk (clk_pos w))) time_limit
    then Raise IndexError else Raise ValueError.
Proof.
  intros Hend Hlegal.
  set (root := mkNode None None [] (legal_actions current_state) 0 0).
  set (w2 := World (heap w ++ [root]) (rnd_pos w) (S (S (clk_pos w)))).
  assert (heap w2 !! length (heap w) = Some root) as Hr.
  { simpl. by rewrite lookup_app_r, Nat.sub_diag. }
  assert (traverse_nodes (S fuel) (length (heap w)) current_state
            (current_player current_state) w2
          = Ret ((length (heap w), current_state), w2)) as Htr.
  { cbn [traverse_nodes].
    rewrite (bind_ret_l _ _ _ _ _ (get_node_lookup _ _ _ Hr)).
    unfold root. cbn [untried_actions child_nodes]. by rewrite Hend, Hlegal. }
  assert (expand_leaf rnd (length (heap w)) current_state w2 = Raise IndexError)
    as Hex.
  { unfold expand_leaf.
    rewrite (bind_ret_l _ _ _ _ _ (get_node_lookup _ _ _ Hr)).
    unfold root. cbn [untried_actions]. by rewrite Hlegal. }
  assert (iteration rnd (S fuel) (length (heap w)) current_state
            (current_player current_state) w2 = Raise IndexError) as Hit.
  { unfold iteration. rewrite (bind_ret_l _ _ _ _ _ Htr).
    rewrite Hend. cbn [negb]. unfold bind at 1. by rewrite Hex. }
  unfold think, think_counted.
  unfold bind at 1 2. unfold new_node at 1. unfold bind at 1. unfold time at 1.
  cbn [heap rnd_pos clk_pos search_loop].
  unfold bind at 1 2. unfold time at 1. cbn [heap rnd_pos clk_pos].
  destruct (sec_lt _ _).
  - fold root. fold w2. unfold bind at 1. by rewrite Hit.
  - unfold ret, get_best_action, bind, get_node. cbn [heap].
    rewrite lookup_app_r, Nat.sub_diag by done. by rewrite Hlegal.
Qed.
End Search.

(** ** A call of [think] on a board that keeps its contract *)

Section Fair.
Context `{board : Board} `{clock : Clock} `{scores : Scores}.
Variable rnd : nat → nat.
Variable clk : nat → seconds.

(** The state [think] is called on, and what is asked of the board:
    each legal action is listed once; a state where the game is not
    over has a legal action; a state where it is over has a score for
    the player to move in [s0]; and every legal action brings the game
    closer to its end, as [measure] counts it.  Of the arithmetic of
    the scores it is asked that [math.sqrt] does not raise in [ucb]. *)
Variable s0 : State.
Variable measure : State → nat.
Hypothesis legal_NoDup : ∀ s : State, NoDup (legal_actions s).
Hypothesis legal_nonempty : ∀ s, is_ended s = false → legal_actions s ≠ [].
Hypothesis scored :
  ∀ s, is_ended s = true →
    ∃ outcome v, points_values s = Some outcome ∧
                 outcome !! current_player s0 = Some v.
Hypothesis game_shrinks :
  ∀ s a, is_ended s = false → a ∈ legal_actions s →
    measure (next_state s a) < measure s.
Hypothesis sqrt_defined : sqrt_log_defined.

Lemma rollout_total fuel : ∀ state (w : world),
  measure state < fuel →
  ∃ s' w', rollout rnd fuel state w = Ret (s', w') ∧
           is_ended s' = true ∧ heap w' = heap w.
Proof.
  induction fuel as [|fuel IH]; intros state w Hm; [lia|].
  destruct (is_ended state) eqn:Hend.
  { exists state, w. by rewrite rollout_game_over. }
  simpl. rewrite Hend.
  destruct (heuristic_action_choice_returns rnd state (legal_actions state) w)
    as (a & w1 & Ha); [by apply legal_nonempty|].
  pose proof (heuristic_action_choice_elem _ _ _ _ _ _ Ha) as Hin.
  pose proof (heuristic_action_choice_inv _ _ _ _ _ _ Ha) as [Hh _].
  destruct (IH (next_state state a) w1) as (s' & w' & Hr & He & Hh').
  { pose proof (game_shrinks state a Hend Hin). lia. }
  exists s', w'. rewrite (bind_ret_l _ _ _ _ _ Ha).
  split; [done|]. split; [done|congruence].
Qed.

Lemma parent_chain_extends (h h' : list MCTSNode) i l :
  extends h h' → parent_chain h i l → parent_chain h' i l.
Proof.
  intros Hext. induction 1 as [i n Hi Hp|i n p l Hi Hp _ IH].
  - destruct (Hext _ _ Hi) as (n' & Hn' & Hp' & _).
    eapply chain_root; [done|congruence].
  - destruct (Hext _ _ Hi) as (n' & Hn' & Hp' & _).
    eapply chain_step; [done| |done]. congruence.
Qed.

Lemma best_child_total r (w : world) node n state bot :
  wf_tree r (heap w) → r ≤ node → heap w !! node = Some n →
  child_nodes n ≠ [] → 1 ≤ visits n →
  ∃ c, best_child n state bot w = Ret (c, w).
Proof.
  intros Hwf Hle Hn Hch Hv. apply py_max_total.
  - unfold values. by destruct (child_nodes n).
  - apply Forall_forall. intros c Hc. unfold values in Hc.
    apply list_elem_of_fmap in Hc as ([a c'] & -> & Hin).
    destruct (wf_child _ _ Hwf node n a c' Hn Hle Hin) as (cn & Hcn & _ & Hp & _).
    eapply ucb_total; [done..|]. right. exists node, n.
    split; [done|]. split; [done|lia].
Qed.

(** The keys of the dict of a node are legal actions of its state. *)
Lemma child_key_legal r (h : list MCTSNode) node n state a c :
  partitioned r s0 h → r ≤ node → h !! node = Some n →
  node_state r s0 h node state → (a, c) ∈ child_nodes n →
  a ∈ legal_actions state.
Proof.
  intros Hpart Hle Hn Hst Hin.
  destruct (Hpart node n Hle Hn) as (s & Hs & _ & Hperm).
  assert (s = state) as -> by by eapply node_state_functional.
  rewrite <-Hperm. apply elem_of_app. left. unfold keys.
  apply list_elem_of_fmap. by exists (a, c).
Qed.

Lemma untried_legal r (h : list MCTSNode) node n state a :
  partitioned r s0 h → r ≤ node → h !! node = Some n →
  node_state r s0 h node state → a ∈ untried_actions n →
  a ∈ legal_actions state.
Proof.
  intros Hpart Hle Hn Hst Hin.
  destruct (Hpart node n Hle Hn) as (s & Hs & _ & Hperm).
  assert (s = state) as -> by by eapply node_state_functional.
  rewrite <-Hperm. apply elem_of_app. by right.
Qed.

(** With fuel for the moves the game has left, [traverse_nodes]
    returns; the chain of the node it stops at is no longer than the
    moves played on the way allow. *)
Lemma traverse_total r bot fuel : ∀ node state l (w : world),
  wf_tree r (heap w) → partitioned r s0 (heap w) → parents_visited r (heap w) →
  r ≤ node → node_state r s0 (heap w) node state →
  parent_chain (heap w) node l → measure state < fuel →
  ∃ x s l',
    traverse_nodes fuel node state bot w = Ret ((x, s), w) ∧
    parent_chain (heap w) x l' ∧
    length l' + measure s ≤ length l + measure state.
Proof.
  induction fuel as [|fuel IH];
    intros node state l w Hwf Hpart Hvis Hle Hst Hl Hm; [lia|].
  destruct (node_state_lookup _ _ _ _ _ Hst) as [n Hn].
  cbn [traverse_nodes]. rewrite (bind_ret_l _ _ _ _ _ (get_node_lookup _ _ _ Hn)).
  destruct (is_ended state) eqn:Hend; cbn [negb andb].
  { exists node, state, l. by split. }
  destruct (is_nil (untried_actions n)).
  2:{ exists node, state, l. by split. }
  destruct (child_nodes n) as [|e d] eqn:Hch; cbn [is_nil].
  { exists node, state, l. by split. }
  destruct (best_child_total r w node n state bot) as [c Hc]; [done..| | |].
  { by rewrite Hch. }
  { apply (Hvis node n Hle Hn). by rewrite Hch. }
  rewrite (bind_ret_l _ _ _ _ _ Hc).
  destruct (best_child_elem _ _ _ _ _ _ Hc) as [_ [a Hin]].
  destruct (wf_child _ _ Hwf node n a c Hn Hle Hin) as (cn & Hcn & Hlt & Hp & Hpa).
  rewrite (bind_ret_l _ _ _ _ _ (get_node_lookup _ _ _ Hcn)). rewrite Hpa.
  assert (a ∈ legal_actions state) as Hlegal by by eapply child_key_legal.
  pose proof (game_shrinks state a Hend Hlegal) as Hless.
  destruct (IH c (next_state state a) (c :: l) w) as (x & s & l' & Htr & Hl' & Hlen);
    [done..|lia|by eapply state_child|by eapply chain_step|lia|].
  exists x, s, l'. split; [done|]. split; [done|]. simpl in Hlen. lia.
Qed.

Lemma is_win_scored state (w : world) :
  is_ended state = true →
  ∃ b, is_win state (current_player s0) w = Ret (b, w).
Proof.
  intros Hend. destruct (scored state Hend) as (o & v & Ho & Hv).
  exists (Qeq_bool v 1). unfold is_win. by rewrite Ho, Hv.
Qed.

(** On such a board a turn of the loop returns, given fuel for the
    moves the game has left. *)
Lemma iteration_total r fuel (w : world) :
  wf_tree r (heap w) → partitioned r s0 (heap w) → parents_visited r (heap w) →
  measure s0 < fuel →
  ∃ w', iteration rnd fuel r s0 (current_player s0) w = Ret (tt, w').
Proof.
  intros Hwf Hpart Hvis Hm.
  destruct (wf_root _ _ Hwf) as (rn & Hr & Hrp).
  assert (node_state r s0 (heap w) r s0) as Hst by by eapply state_root.
  assert (parent_chain (heap w) r [r]) as Hl by by eapply chain_root.
  destruct (traverse_total r (current_player s0) fuel r s0 [r] w)
    as (x0 & st0 & l0 & Htr & Hl0 & Hlen); [done..|].
  destruct (traverse_nodes_in_tree _ _ _ _ _ _ _ _ _ _ Hwf (Nat.le_refl r) Hst Htr)
    as [Hle0 Hst0].
  destruct (traverse_nodes_stop_inv _ _ _ _ _ _ _ _ Htr) as (_ & n0 & Hn0 & Hstop).
  simpl in Hlen.
  unfold iteration. rewrite (bind_ret_l _ _ _ _ _ Htr). cbv beta iota.
  destruct (is_ended st0) eqn:Hend; cbn [negb].
  - rewrite (bind_ret_l (ret (x0, st0)) _ w (x0, st0) w eq_refl). cbv beta iota.
    rewrite (bind_ret_l _ _ _ _ _ (rollout_game_over rnd fuel st0 w Hend)).
    destruct (is_win_scored st0 w Hend) as [b Hb].
    rewrite (bind_ret_l _ _ _ _ _ Hb).
    destruct (backpropagate_chain l0 x0 b fuel w Hl0) as (w' & Hbp & _); [lia|].
    by exists w'.
  - assert (untried_actions n0 ≠ []) as Hun.
    { destruct Hstop as [?|[?|Hch]]; [congruence|done|]. intros Hun.
      destruct (Hpart x0 n0 Hle0 Hn0) as (s & Hs & _ & Hperm).
      assert (s = st0) as -> by by eapply node_state_functional.
      rewrite Hch, Hun in Hperm. simpl in Hperm.
      apply Permutation_nil_l in Hperm. by apply (legal_nonempty st0 Hend). }
    destruct (expand_leaf_returns rnd x0 st0 w n0 Hn0 Hun)
      as (action & rest & Hact & Hrem & Hex).
    rewrite (bind_ret_l _ _ _ _ _ Hex). cbv beta iota.
    assert (action ∈ legal_actions st0) as Hlegal.
    { eapply untried_legal; [done..|]. by eapply list_elem_of_lookup_2. }
    pose proof (game_shrinks st0 action Hend Hlegal) as Hless.
    set (h1 := expanded (heap w) x0 n0 action rest (next_state st0 action)).
    set (w1 := World h1 (S (rnd_pos w)) (clk_pos w)).
    destruct (rollout_total fuel (next_state st0 action) w1)
      as (s' & w2 & Hroll & Hend' & Hh2); [lia|].
    rewrite (bind_ret_l _ _ _ _ _ Hroll).
    destruct (is_win_scored s' w2 Hend') as [b Hb].
    rewrite (bind_ret_l _ _ _ _ _ Hb).
    assert (parent_chain (heap w2) (length (heap w)) (length (heap w) :: l0))
      as Hl1.
    { rewrite Hh2. simpl. eapply chain_step.
      - by apply expanded_lookup_new.
      - done.
      - eapply parent_chain_extends; [|done]. by apply expanded_extends. }
    destruct (backpropagate_chain _ _ b fuel w2 Hl1) as (w' & Hbp & _);
      [simpl; lia|].
    by exists w'.
Qed.

Lemma dict_set_nonempty {K V} `{EqDecision K} (k : K) (v : V) d :
  dict_set k v d ≠ [].
Proof. destruct d as [|[k' v'] d]; [done|]. simpl. by destruct (decide _). Qed.

Lemma iteration_parents_visited fuel r bot (w w' : world) :
  wf_tree r (heap w) → parents_visited r (heap w) →
  iteration rnd fuel r s0 bot w = Ret (tt, w') → parents_visited r (heap w').
Proof.
  intros Hwf Hvis H.
  apply iteration_effect in H
    as (x0 & st0 & x & h1 & l & won & _ & Hle0 & _ & Hex & _ & _ & Hl & _ & _ & Hon & Hoff);
    [|done].
  intros j n' Hj Hn' Hch. destruct (decide (j ∈ l)) as [Hin|Hnotin].
  - destruct (parent_chain_lookup _ _ _ _ Hl Hin) as [n Hn].
    apply list_elem_of_lookup_1 in Hin as [k Hk].
    rewrite (Hon k j n Hk Hn) in Hn'. injection Hn' as <-. simpl. lia.
  - rewrite (Hoff j Hnotin) in Hn'. destruct (is_ended st0).
    + destruct Hex as [-> ->]. by eapply Hvis.
    + destruct Hex as (n0 & action & rest & Hn0 & _ & _ & -> & ->).
      destruct (expanded_lookup _ _ _ _ _ _ Hn0 _ _ Hn') as [[-> ->]|[[Hne Hn]|[-> ->]]].
      * exfalso. apply Hnotin.
        inversion Hl as [i m Hi Hp|i m p l2 Hi Hp Hl2]; simplify_eq.
        -- rewrite expanded_lookup_new in Hi. by simplify_eq.
        -- rewrite expanded_lookup_new in Hi. simplify_eq. simpl in Hp.
           simplify_eq. apply elem_of_cons. right.
           eapply list_elem_of_lookup_2. by eapply parent_chain_head.
      * by eapply Hvis.
      * done.
Qed.

(** A turn from a state where the game is not over leaves the root with
    a child. *)
Lemma iteration_root_child fuel r bot (w w' : world) :
  is_ended s0 = false →
  wf_tree r (heap w) → partitioned r s0 (heap w) →
  iteration rnd fuel r s0 bot w = Ret (tt, w') →
  ∃ n, heap w' !! r = Some n ∧ child_nodes n ≠ [].
Proof.
  intros Hend Hwf Hpart H.
  apply iteration_effect in H
    as (x0 & st0 & x & h1 & l & won & Htr & Hle0 & _ & Hex & _ & _ & _ & _ & Hs & _);
    [|done].
  destruct (wf_root _ _ Hwf) as (rn & Hr & Hrp).
  assert (∃ n1, h1 !! r = Some n1 ∧ child_nodes n1 ≠ []) as (n1 & Hn1 & Hch1).
  { destruct (child_nodes rn) as [|e d] eqn:Hch.
    - assert (untried_actions rn ≠ []) as Hun.
      { intros Hun. destruct (Hpart r rn (Nat.le_refl r) Hr) as (s & Hst & _ & Hperm).
        assert (s = s0) as ->.
        { eapply node_state_functional; [done|]. by eapply state_root. }
        rewrite Hch, Hun in Hperm. apply Permutation_nil_l in Hperm.
        by apply (legal_nonempty s0 Hend). }
      destruct fuel as [|fuel]; [done|]. cbn [traverse_nodes] in Htr.
      rewrite (bind_ret_l _ _ _ _ _ (get_node_lookup _ _ _ Hr)) in Htr.
      destruct (untried_actions rn) as [|a u] eqn:Hu; [done|].
      rewrite Hend in Htr. cbn [negb andb is_nil] in Htr.
      apply ret_inv in Htr as [[= <- <-] _]. rewrite Hend in Hex.
      destruct Hex as (n0 & action & rest & Hn0 & _ & _ & -> & ->).
      eexists. split; [by apply expanded_lookup_node|].
      simpl. apply dict_set_nonempty.
    - destruct (is_ended st0).
      + destruct Hex as [_ ->]. exists rn. split; [done|]. by rewrite Hch.
      + destruct Hex as (n0 & action & rest & Hn0 & _ & _ & -> & ->).
        destruct (decide (r = x0)) as [<-|Hne].
        * eexists. split; [by apply expanded_lookup_node|].
          simpl. apply dict_set_nonempty.
        * exists rn. split; [|by rewrite Hch].
          rewrite expanded_lookup_other; [done..|]. by eapply lookup_lt_Some. }
  assert (shape <$> h1 = shape <$> heap w') as Hs' by done.
  destruct (shape_lookup _ _ _ _ Hs' Hn1) as (n' & Hn' & [= _ _ Hc _]).
  exists n'. split; [done|congruence].
Qed.

Lemma search_loop_total r inner start limit : ∀ k fuel (w : world),
  wf_tree r (heap w) → partitioned r s0 (heap w) → parents_visited r (heap w) →
  k < fuel → measure s0 < inner →
  runs_for clk (clk_pos w) start limit k →
  ∃ w', search_loop rnd clk fuel inner start limit r s0 (current_player s0) w
        = Ret (k, w').
Proof.
  induction k as [|k IH]; intros fuel w Hwf Hpart Hvis Hfuel Hm [Hin Hout];
    (destruct fuel as [|fuel]; [lia|]); cbn [search_loop];
    rewrite (bind_ret_l (time clk) _ w (clk (clk_pos w))
               (World (heap w) (rnd_pos w) (S (clk_pos w))) eq_refl).
  - rewrite Nat.add_0_r in Hout.
    rewrite Hout. by eexists.
  - pose proof (Hin 0 (Nat.lt_0_succ k)) as H0. rewrite Nat.add_0_r in H0.
    rewrite H0.
    set (w1 := World (heap w) (rnd_pos w) (S (clk_pos w))).
    destruct (iteration_total r inner w1) as [w2 Hit]; [done..|].
    rewrite (bind_ret_l _ _ _ _ _ Hit).
    assert (wf_tree r (heap w1)) as Hwf1 by done.
    assert (partitioned r s0 (heap w1)) as Hpart1 by done.
    assert (parents_visited r (heap w1)) as Hvis1 by done.
    pose proof (iteration_root_visit _ _ _ _ _ _ _ Hwf1 Hit) as (Hwf2 & Hc2 & _).
    pose proof (iteration_partitioned _ legal_NoDup _ _ _ _ _ _ Hwf1 Hpart1 Hit)
      as Hpart2.
    pose proof (iteration_parents_visited _ _ _ _ _ Hwf1 Hvis1 Hit) as Hvis2.
    destruct (IH fuel w2) as [w' Hloop]; [done..|lia|done| |].
    { rewrite Hc2. simpl. split.
      - intros j Hj. replace (S (clk_pos w) + j) with (clk_pos w + S j) by lia.
        apply Hin. lia.
      - by replace (S (clk_pos w) + k) with (clk_pos w + S k) by lia. }
    rewrite (bind_ret_l _ _ _ _ _ Hloop). by eexists.
Qed.

Lemma get_best_action_total r (w : world) n :
  wf_tree r (heap w) → heap w !! r = Some n → child_nodes n ≠ [] →
  ∃ a c, get_best_action r w = Ret (a, w) ∧ (a, c) ∈ child_nodes n.
Proof.
  intros Hwf Hn Hch.
  destruct (py_max_total nat_gt visits_key w (child_nodes n) Hch) as [[a c] Hmax].
  { apply Forall_forall. intros [a c] Hin.
    destruct (wf_child _ _ Hwf r n a c Hn (Nat.le_refl r) Hin) as (cn & Hcn & _).
    exists (visits cn). unfold visits_key.
    by rewrite (bind_ret_l _ _ _ _ _ (get_node_lookup _ _ _ Hcn)). }
  exists a, c. split.
  - unfold get_best_action.
    rewrite (bind_ret_l _ _ _ _ _ (get_node_lookup _ _ _ Hn)).
    fold visits_key. by rewrite (bind_ret_l _ _ _ _ _ Hmax).
  - apply (py_max_first_max _ _ nat_gt_order visits_key_readonly) in Hmax as [_ Hmax].
    by apply first_max_elem in Hmax.
Qed.

(** X11. On a board that keeps its contract, called on a state where
    the game is not over, when the test of the loop,
    [time() - start_time < time_limit] as the arithmetic of the clock
    computes it, holds of the first [k >= 1] readings after the start
    and fails at the next, and there is fuel for [k] turns, [think]
    returns: it raises nothing, runs exactly [k] turns, and the action
    it returns is a legal action of the state it was called on. *)
Theorem think_returns_legal_action fuel time_limit (w : world) k :
  is_ended s0 = false →
  runs_for clk (S (clk_pos w)) (clk (clk_pos w)) time_limit k →
  1 ≤ k → k < fuel → measure s0 < fuel →
  ∃ action w',
    think_counted rnd clk fuel s0 time_limit w = Ret ((action, k), w') ∧
    action ∈ legal_actions s0.
Proof.
  intros Hend Hruns Hk Hfuel Hm.
  set (r := length (heap w)).
  set (root := mkNode None None [] (legal_actions s0) 0 0).
  set (w1 := World (heap w ++ [root]) (rnd_pos w) (S (clk_pos w))).
  assert (wf_tree r (heap w1)) as Hwf1 by apply fresh_root_wf.
  assert (partitioned r s0 (heap w1)) as Hpart1
    by by apply fresh_root_partitioned.
  assert (parents_visited r (heap w1)) as Hvis1.
  { intros i n Hi Hn Hch. simpl in Hn.
    pose proof (lookup_lt_Some _ _ _ Hn) as Hlt. rewrite length_app in Hlt.
    simpl in Hlt. assert (i = length (heap w)) as -> by (unfold r in Hi; lia).
    rewrite lookup_app_r, Nat.sub_diag in Hn by done. by injection Hn as <-. }
  destruct (search_loop_total r fuel (clk (clk_pos w)) time_limit k fuel w1)
    as [w' Hloop]; [done..|].
  pose proof (search_loop_inv _ _ _ _ _ _ _ _ _ _ _ _ Hwf1 Hloop) as (Hwf' & _).
  assert (partitioned r s0 (heap w') ∧
          (1 ≤ 0 + k → ∃ n, heap w' !! r = Some n ∧ child_nodes n ≠ []))
    as [Hpart' Hchild].
  { apply (search_loop_invariant rnd clk
             (λ k h, partitioned r s0 h ∧
                     (1 ≤ k → ∃ n, h !! r = Some n ∧ child_nodes n ≠ []))
             fuel (clk (clk_pos w)) time_limit r s0 (current_player s0))
      with (fuel := fuel) (w := w1); [|done| |done].
    - intros j wa wb Hwfa [Hparta _] Hit. split.
      + by eapply iteration_partitioned.
      + intros _. by eapply iteration_root_child.
    - split; [done|lia]. }
  destruct Hchild as (n & Hn & Hch); [lia|].
  destruct (get_best_action_total r w' n Hwf' Hn Hch) as (a & c & Hbest & Hin).
  exists a, w'. split.
  - unfold think_counted.
    rewrite (bind_ret_l (new_node None None (legal_actions s0)) _ w r
               (World (heap w ++ [root]) (rnd_pos w) (clk_pos w)) eq_refl).
    rewrite (bind_ret_l (time clk) _
               (World (heap w ++ [root]) (rnd_pos w) (clk_pos w))
               (clk (clk_pos w)) w1 eq_refl).
    rewrite (bind_ret_l _ _ _ _ _ Hloop).
    by rewrite (bind_ret_l _ _ _ _ _ Hbest).
  - eapply (child_key_legal r (heap w') r n); [done..| |done].
    destruct (wf_root _ _ Hwf') as (rn & Hr & Hrp). by eapply state_root.
Qed.
End Fair.

(** ** The visits of the children of the root *)

Section Counts.
Context `{board : Board} `{clock : Clock} `{scores : Scores}.
Variable rnd : nat → nat.
Variable clk : nat → seconds.
Variable s0 : State.
Hypothesis legal_NoDup : ∀ s : State, NoDup (legal_actions s).
Hypothesis not_over : is_ended s0 = false.

Lemma parent_chain_split (h : list MCTSNode) i l :
  parent_chain h i l → ∀ la j lb, l = la ++ j :: lb → parent_chain h j (j :: lb).
Proof.
  induction 1 as [i n Hi Hp|i n p l Hi Hp Hl IH]; intros la j lb Heq.
  - destruct la as [|a la]; simplify_eq/=; [by eapply chain_root|].
    by destruct la.
  - destruct la as [|a la]; simplify_eq/=; [by eapply chain_step|].
    by eapply IH.
Qed.

(** A chain that starts below the root goes through one node that
    points to the root, just before the root. *)
Lemma parent_chain_through_child (h : list MCTSNode) r rn x l :
  h !! r = Some rn → parent rn = None →
  parent_chain h x l → x ≠ r → last l = Some r →
  ∃ l1 c cn, l = l1 ++ [c; r] ∧ h !! c = Some cn ∧ parent cn = Some r.
Proof.
  intros Hr Hrp. induction 1 as [i n Hi Hp|i n p l Hi Hp Hl IH]; intros Hne Hlast.
  - simpl in Hlast. congruence.
  - destruct (decide (p = r)) as [->|Hpr].
    + assert (l = [r]) as ->.
      { eapply parent_chain_functional; [done|]. by eapply chain_root. }
      by exists [], i, n.
    + destruct IH as (l1 & c & cn & -> & Hc & Hcp); [done| |].
      { rewrite last_cons in Hlast. destruct (last l); [done|congruence]. }
      by exists (i :: l1), c, cn.
Qed.

Lemma only_child_on_chain (h : list MCTSNode) r rn x l1 c d dn :
  h !! r = Some rn → parent rn = None →
  parent_chain h x (l1 ++ [c; r]) →
  h !! d = Some dn → parent dn = Some r → d ∈ l1 ++ [c; r] → d = c.
Proof.
  intros Hr Hrp Hl Hd Hdp Hin.
  assert (parent_chain h d [d; r]) as Hdl.
  { eapply chain_step; [done..|]. by eapply chain_root. }
  apply elem_of_app in Hin as [Hin|Hin].
  - apply list_elem_of_split in Hin as (la & lb & ->).
    rewrite <-app_assoc in Hl. simpl in Hl.
    pose proof (parent_chain_split _ _ _ Hl la d (lb ++ [c; r]) eq_refl) as Hd'.
    pose proof (parent_chain_functional _ _ _ _ Hdl Hd') as Heq.
    injection Heq as Heq. destruct lb; simplify_eq/=. by destruct lb.
  - apply elem_of_cons in Hin as [->|Hin]; [done|].
    apply list_elem_of_singleton in Hin as ->. congruence.
Qed.

(** The children in a dict are different nodes. *)
Lemma values_NoDup r (h : list MCTSNode) i n :
  wf_tree r h → partitioned r s0 h → r ≤ i → h !! i = Some n →
  NoDup (values (child_nodes n)).
Proof.
  intros Hwf Hpart Hle Hn.
  destruct (Hpart i n Hle Hn) as (s & _ & Hnd & _).
  apply NoDup_app in Hnd as (Hkeys & _ & _).
  assert (∀ a c, (a, c) ∈ child_nodes n → h !! c ≫= parent_action = Some a) as Hg.
  { intros a c Hin. destruct (wf_child _ _ Hwf i n a c Hn Hle Hin) as (cn & -> & _ & _ & Hpa).
    done. }
  revert Hkeys Hg. unfold keys, values. generalize (child_nodes n).
  induction l as [|[a c] d IH]; intros Hkeys Hg; [apply NoDup_nil_2|].
  simpl in *. apply NoDup_cons in Hkeys as [Ha Hkeys]. apply NoDup_cons. split.
  - intros Hc. apply list_elem_of_fmap in Hc as ([a' c'] & Heq & Hin).
    simpl in Heq. subst c'.
    assert (a' = a) as ->.
    { pose proof (Hg a c (list_elem_of_here _ _)) as H1.
      pose proof (Hg a' c (list_elem_of_further _ _ _ Hin)) as H2. congruence. }
    apply Ha. apply list_elem_of_fmap. by exists (a, c).
  - apply IH; [done|]. intros a' c' Hin. apply Hg. by apply list_elem_of_further.
Qed.

Lemma sum_list_with_bump (f g : nat → nat) (c : nat) (l : list nat) :
  NoDup l → c ∈ l →
  (∀ d, d ∈ l → g d = if decide (d = c) then f d + 1 else f d) →
  sum_list_with g l = sum_list_with f l + 1.
Proof.
  assert (∀ l, c ∉ l → (∀ d, d ∈ l → g d = if decide (d = c) then f d + 1 else f d) →
            sum_list_with g l = sum_list_with f l) as Hsame.
  { clear l. induction l as [|d l IH]; intros Hc Hg; [done|]. simpl.
    rewrite (Hg d (list_elem_of_here _ _)).
    destruct (decide (d = c)) as [->|_].
    - exfalso. apply Hc. apply list_elem_of_here.
    - f_equal. apply IH.
      + intros Hin. apply Hc. by apply list_elem_of_further.
      + intros d' Hd'. apply Hg. by apply list_elem_of_further. }
  induction l as [|d l IH]; intros Hnd Hc Hg; [by apply elem_of_nil in Hc|].
  apply NoDup_cons in Hnd as [Hd Hnd]. simpl.
  rewrite (Hg d (list_elem_of_here _ _)).
  destruct (decide (d = c)) as [->|Hne].
  - rewrite (Hsame l Hd); [lia|]. intros d' Hd'. apply Hg.
    by apply list_elem_of_further.
  - apply elem_of_cons in Hc as [->|Hc]; [done|]. rewrite IH; [lia|done..|].
    intros d' Hd'. apply Hg. by apply list_elem_of_further.
Qed.

Lemma sum_list_with_ext_in (f g : nat → nat) (l : list nat) :
  (∀ d, d ∈ l → g d = f d) → sum_list_with g l = sum_list_with f l.
Proof.
  induction l as [|d l IH]; intros Hg; [done|]. simpl.
  rewrite (Hg d (list_elem_of_here _ _)). f_equal. apply IH.
  intros d' Hd'. apply Hg. by apply list_elem_of_further.
Qed.

(** The heap a turn credits: after the expansion, if there is one, the
    visits of the children of the root still add up to those of the
    root, and the node the turn reached is not the root. *)
Lemma iteration_counts_mid r (w : world) rn x0 st0 x h1 :
  wf_tree r (heap w) → partitioned r s0 (heap w) →
  root_children_listed r (heap w) →
  heap w !! r = Some rn → children_visits (heap w) rn = visits rn →
  r ≤ x0 → node_state r s0 (heap w) x0 st0 →
  (if is_ended st0 then x = x0 ∧ h1 = heap w
   else ∃ n action rest,
          heap w !! x0 = Some n ∧ action ∈ untried_actions n ∧
          list_remove action (untried_actions n) = Some rest ∧
          x = length (heap w) ∧
          h1 = expanded (heap w) x0 n action rest (next_state st0 action)) →
  x ≠ r ∧ partitioned r s0 h1 ∧ root_children_listed r h1 ∧
  ∃ rn1, h1 !! r = Some rn1 ∧ children_visits h1 rn1 = visits rn1.
Proof.
  intros Hwf Hpart Hlist Hr Hsum Hle0 Hst0 Hex.
  destruct (wf_root _ _ Hwf) as (rn0 & Hr0 & Hrp).
  assert (rn0 = rn) as -> by congruence.
  destruct (is_ended st0) eqn:Hend.
  { destruct Hex as [-> ->]. split; [|by eauto]. intros ->.
    assert (st0 = s0) as ->.
    { eapply node_state_functional; [done|]. by eapply state_root. }
    congruence. }
  destruct Hex as (n0 & action & rest & Hn0 & Hin & Hrem & -> & ->).
  pose proof (lookup_lt_Some _ _ _ Hn0) as Hlt0.
  destruct (expanded_partitioned legal_NoDup _ _ _ _ _ _ _ _
              Hn0 Hwf Hpart Hle0 Hst0 Hin Hrem) as [Hfresh Hpart1].
  split; [lia|]. split; [done|].
  assert (∀ d, d ∈ values (child_nodes rn) →
            visits_of (expanded (heap w) x0 n0 action rest (next_state st0 action)) d
            = visits_of (heap w) d) as Hsame.
  { intros d Hd. unfold values in Hd.
    apply list_elem_of_fmap in Hd as ([a d'] & -> & Hd).
    destruct (wf_child _ _ Hwf r rn a d' Hr (Nat.le_refl r) Hd) as (dn & Hdn & _).
    destruct (expanded_visits _ _ _ action rest (next_state st0 action) Hn0 _ _ Hdn)
      as (m' & Hm' & Hv).
    unfold visits_of. simpl. by rewrite Hm', Hdn. }
  destruct (decide (x0 = r)) as [->|Hne].
  - assert (n0 = rn) as -> by congruence. split.
    + intros i n rn' Hi Hn Hp Hr'.
      rewrite (expanded_lookup_node _ _ _ _ _ _ Hn0) in Hr'. injection Hr' as <-.
      simpl. rewrite dict_set_fresh by done. unfold values. rewrite fmap_app.
      apply elem_of_app.
      destruct (expanded_lookup _ _ _ _ _ _ Hn0 _ _ Hn) as [[-> ->]|[[Hne Hn']|[-> ->]]].
      * lia.
      * left. by eapply Hlist.
      * right. simpl. apply list_elem_of_here.
    + eexists. split; [by apply expanded_lookup_node|].
      unfold children_visits. simpl. rewrite dict_set_fresh by done.
      pose proof (sum_list_with_ext_in _ _ _ Hsame) as Heq.
      unfold children_visits in Hsum. unfold values in *.
      rewrite fmap_app, sum_list_with_app, Heq. simpl.
      unfold visits_of at 2. rewrite expanded_lookup_new. simpl. lia.
  - assert (expanded (heap w) x0 n0 action rest (next_state st0 action) !! r
            = Some rn) as Hr1.
    { rewrite expanded_lookup_other; [done..|]. by eapply lookup_lt_Some. }
    split.
    + intros i n rn' Hi Hn Hp Hr'. assert (rn' = rn) as -> by congruence.
      destruct (expanded_lookup _ _ _ _ _ _ Hn0 _ _ Hn) as [[-> ->]|[[Hne' Hn']|[-> ->]]].
      * by eapply (Hlist x0 n0).
      * by eapply Hlist.
      * simpl in Hp. congruence.
    + exists rn. split; [done|]. unfold children_visits.
      by rewrite (sum_list_with_ext_in _ _ _ Hsame).
Qed.

Lemma iteration_counts fuel r bot (w w' : world) :
  wf_tree r (heap w) → partitioned r s0 (heap w) →
  root_children_listed r (heap w) →
  (∃ rn, heap w !! r = Some rn ∧ children_visits (heap w) rn = visits rn) →
  iteration rnd fuel r s0 bot w = Ret (tt, w') →
  root_children_listed r (heap w') ∧
  ∃ rn', heap w' !! r = Some rn' ∧ children_visits (heap w') rn' = visits rn'.
Proof.
  intros Hwf Hpart Hlist (rn & Hr & Hsum) H.
  apply iteration_effect in H
    as (x0 & st0 & x & h1 & l & won & _ & Hle0 & Hst0 & Hex & Hwf1 & Hle & Hl & _ & Hs & Hon & Hoff);
    [|done].
  destruct (iteration_counts_mid r w rn x0 st0 x h1)
    as (Hxr & Hpart1 & Hlist1 & rn1 & Hr1 & Hsum1); [done..|].
  destruct (wf_root _ _ Hwf1) as (rn1' & Hr1' & Hrp1).
  assert (rn1' = rn1) as -> by congruence.
  pose proof (parent_chain_to_root _ _ _ _ Hwf1 Hle Hl) as Hlast.
  destruct (parent_chain_through_child _ _ _ _ _ Hr1 Hrp1 Hl Hxr Hlast)
    as (l1 & c & cn & -> & Hc & Hcp).
  assert (r < c) as Hrc.
  { assert (r ≤ c).
    { eapply parent_chain_in_tree; [done..|]. apply elem_of_app. right.
      apply list_elem_of_here. }
    assert (c ≠ r) by (intros ->; congruence). lia. }
  assert (c ∈ values (child_nodes rn1)) as Hcin by by eapply Hlist1.
  assert (shape <$> h1 = shape <$> heap w') as Hs' by done.
  assert (heap w' !! r = Some (credited (alternate won (S (length l1))) rn1)) as Hr'.
  { eapply Hon; [|done]. rewrite lookup_app_r by lia.
    by replace (S (length l1) - length l1) with 1 by lia. }
  split.
  - intros i n rn' Hi Hn Hp Hrn'. rewrite Hr' in Hrn'. injection Hrn' as <-.
    destruct (shape_lookup _ _ _ _ Hs Hn) as (n1 & Hn1 & [= Hp1 _ _ _]).
    simpl. eapply Hlist1; [done..|congruence|done].
  - eexists. split; [done|]. unfold children_visits. simpl.
    rewrite (sum_list_with_bump (visits_of h1) (visits_of (heap w')) c).
    + unfold children_visits in Hsum1. lia.
    + by apply (values_NoDup r h1 r rn1).
    + done.
    + intros d Hd. unfold values in Hd.
      apply list_elem_of_fmap in Hd as ([a d'] & -> & Hd). simpl.
      destruct (wf_child _ _ Hwf1 r rn1 a d' Hr1 (Nat.le_refl r) Hd)
        as (dn & Hdn & _ & Hdp & _).
      destruct (decide (d' = c)) as [->|Hne].
      * assert (heap w' !! c = Some (credited (alternate won (length l1)) dn)) as Hc'.
        { eapply Hon; [|done]. rewrite lookup_app_r by lia.
          by rewrite Nat.sub_diag. }
        unfold visits_of. by rewrite Hc', Hdn.
      * unfold visits_of. rewrite Hoff; [done|]. intros Hin. apply Hne.
        by eapply (only_child_on_chain h1 r rn1 x l1 c d' dn).
Qed.

(** X12. On a board that lists each legal action once, called on a
    state where the game is not over: when [think] returns after [N]
    turns, the visits of the children in the dict of the root add up to
    the visits of the root, that is to [N]. *)
Theorem think_children_visits_add_up fuel time_limit (w : world) action N w' :
  think_counted rnd clk fuel s0 time_limit w = Ret ((action, N), w') →
  ∃ rn, heap w' !! length (heap w) = Some rn ∧
        children_visits (heap w') rn = visits rn ∧ visits rn = N.
Proof.
  intros H. apply think_counted_inv in H as [Hloop _].
  set (r := length (heap w)) in *.
  set (root := mkNode None None [] (legal_actions s0) 0 0) in *.
  assert ((heap w ++ [root]) !! r = Some root) as Hr
    by by rewrite lookup_app_r, Nat.sub_diag.
  pose proof Hloop as (_ & _ & _ & _ & _ & v & Hv & Hv')%search_loop_inv;
    [|apply fresh_root_wf].
  unfold visits_at in Hv, Hv'. simpl in Hv. rewrite Hr in Hv. injection Hv as <-.
  apply (search_loop_invariant rnd clk
           (λ _ h, partitioned r s0 h ∧ root_children_listed r h ∧
                   ∃ rn, h !! r = Some rn ∧ children_visits h rn = visits rn))
    with (k0 := 0) in Hloop.
  - destruct Hloop as (_ & _ & rn & Hrn & Hsum). exists rn.
    split; [done|]. split; [done|]. rewrite Hrn in Hv'. simpl in Hv'.
    injection Hv' as ->. done.
  - intros k wa wb Hwf (Hpart & Hlist & Hsum) Hit.
    split; [by eapply iteration_partitioned|]. by eapply iteration_counts.
  - apply fresh_root_wf.
  - simpl. split; [by apply fresh_root_partitioned|]. split.
    + intros i n rn Hi Hn. apply lookup_lt_Some in Hn.
      rewrite length_app in Hn. simpl in Hn. unfold r in Hi. lia.
    + exists root. by split.
Qed.
End Counts.

(** * Runs on concrete boards *)

Import TicTacToe.

Lemma tictactoe_legal_actions_NoDup (s : position) : NoDup (legal_actions s).
Proof. apply NoDup_filter, NoDup_seq. Qed.

(** [think] from [x_to_win] with a budget of 0.35 s: three turns. *)
Lemma think_three_turns :
  think_counted counting tenths 20 x_to_win (35 # 100) fresh
  = Ret ((2, 3), three_turns).
Proof. vm_compute. reflexivity. Qed.

Lemma think_returns_most_visited_witness :
  think_counted counting tenths 20 x_to_win (35 # 100) fresh
    = Ret ((2, 3), three_turns) ∧
  ∃ root child c,
    heap three_turns !! 0 = Some root ∧ (2, child) ∈ child_nodes root ∧
    heap three_turns !! child = Some c ∧
    (∀ a' child' c',
       (a', child') ∈ child_nodes root → heap three_turns !! child' = Some c' →
       visits c' ≤ visits c) ∧
    (∀ a' child' c',
       (a', child') ∈ child_nodes root → heap three_turns !! child' = Some c' →
       (∀ a'' child'' c'',
          (a'', child'') ∈ child_nodes root →
          heap three_turns !! child'' = Some c'' →
          (a'', child'') ≠ (a', child') → visits c'' < visits c') →
       2 = a').
Proof.
  split; [vm_compute; reflexivity|].
  apply (think_returns_most_visited (board:=board) counting tenths 20 x_to_win (35 # 100)
           fresh 2 3 three_turns).
  vm_compute. reflexivity.
Defined.

Lemma backpropagate_alternates_witness :
  ∃ w' g' c' r',
    backpropagate 3 (Some 2) true chain3 = Ret (tt, w') ∧
    heap w' !! 2 = Some g' ∧ heap w' !! 1 = Some c' ∧ heap w' !! 0 = Some r' ∧
    wins g' = 0 + 1 ∧ wins c' = 1 + 0 ∧ wins r' = 2 + 1 ∧
    visits g' = 1 + 1 ∧ visits c' = 3 + 1 ∧ visits r' = 5 + 1.
Proof.
  exact (proj2 (backpropagate_alternates (board:=board)) 2 1 0
           chain_grandchild chain_child chain_root 3 chain3 eq_refl eq_refl eq_refl eq_refl eq_refl eq_refl
           (le_n 3)).
Defined.

Lemma root_visits_count_iterations_witness :
  think_counted counting tenths 20 x_to_win (35 # 100) fresh
    = Ret ((2, 3), three_turns) ∧
  visits_at three_turns 0 = Some 3 ∧ 1 ≤ 3.
Proof.
  split; [vm_compute; reflexivity|].
  apply (proj2 (root_visits_count_iterations (board:=board) counting tenths)
           20 x_to_win (35 # 100) fresh 2 3 three_turns).
  vm_compute. reflexivity.
Defined.

(** The descent from the root of [one_unvisited]: the child for cell 7
    has a finite score, the child for cell 8 an infinite one. *)
Lemma one_unvisited_best_child :
  best_child (root_of [(7, 1); (8, 2)] 1 1) two_left 2 one_unvisited
  = Ret (2, one_unvisited).
Proof.
  unfold best_child, py_max.
  change (values (child_nodes (root_of [(7, 1); (8, 2)] 1 1))) with [1; 2].
  lazy beta iota.
  rewrite (bind_ret_l _ _ _ _ _
             (exact_ucb_visited 1 _ one_unvisited (leaf 7 8 1) 0
                (root_of [(7, 1); (8, 2)] 1 1) eq_refl (Nat.neq_succ_0 0) eq_refl
                eq_refl (Nat.neq_succ_0 0))).
  cbn [max_loop].
  by rewrite (bind_ret_l _ _ _ _ _
                (ucb_unvisited 2 _ one_unvisited (leaf 8 7 0) eq_refl eq_refl)).
Qed.

Lemma one_unvisited_descent :
  traverse_nodes 2 0 two_left 2 one_unvisited
  = Ret ((2, play two_left 8), one_unvisited).
Proof.
  cbn [traverse_nodes].
  rewrite (bind_ret_l _ _ _ _ _ (get_node_lookup 0 one_unvisited _ eq_refl)).
  change (@is_ended board two_left) with false.
  cbn [negb andb is_nil untried_actions child_nodes root_of].
  rewrite (bind_ret_l _ _ _ _ _ one_unvisited_best_child).
  by rewrite (bind_ret_l _ _ _ _ _ (get_node_lookup 2 one_unvisited _ eq_refl)).
Qed.

Lemma unvisited_child_is_selected_witness :
  has_unvisited_child one_unvisited (root_of [(7, 1); (8, 2)] 1 1) ∧
  ∃ c cn a,
    c ∈ values (child_nodes (root_of [(7, 1); (8, 2)] 1 1)) ∧
    heap one_unvisited !! c = Some cn ∧ visits cn = 0 ∧
    parent_action cn = Some a ∧
    traverse_nodes 1 c (next_state two_left a) 2 one_unvisited
    = Ret ((2, play two_left 8), one_unvisited).
Proof.
  assert (has_unvisited_child one_unvisited (root_of [(7, 1); (8, 2)] 1 1)) as Hun.
  { eexists 2, _. split; [|split; reflexivity]. apply elem_of_cons. right.
    apply elem_of_cons. by left. }
  split; [exact Hun|].
  apply (proj2 (proj2 (unvisited_child_is_selected (board:=board))) 1 0 two_left 2%Z
           one_unvisited (root_of [(7, 1); (8, 2)] 1 1));
    [reflexivity..|exact Hun|].
  exact one_unvisited_descent.
Defined.

Lemma heuristic_second_tier_dead_witness :
  winning_loop initial (legal_actions initial) = None ∧
  blocking_loop initial (legal_actions initial) fresh = Ret (None, fresh).
Proof.
  split; [reflexivity|].
  apply (proj1 (heuristic_second_tier_dead (board:=board) counting initial
                  (@legal_actions board initial) fresh)).
  reflexivity.
Defined.

Lemma children_and_untried_partition_witness :
  (∀ s : position, NoDup (legal_actions s)) ∧
  wf_tree 0 (heap three_turns) ∧ partitioned 0 x_to_win (heap three_turns).
Proof.
  split; [exact tictactoe_legal_actions_NoDup|].
  apply (proj2 (proj2 (children_and_untried_partition_legal_actions
                         (board:=board) counting tenths tictactoe_legal_actions_NoDup))
           20 x_to_win (35 # 100) fresh 2 3 three_turns).
  vm_compute. reflexivity.
Defined.

(** On a board that lists an action twice the action stays in
    [untried_actions] after its child is made, and the next turn makes
    a second child for it. *)
Lemma duplicate_legal_action_breaks_partition :
  (∃ w' n,
     think_counted (board:=Stutter.board) counting tenths 20 false (15 # 100)
       (World [] 0 0) = Ret ((0, 1), w') ∧
     heap w' !! 0 = Some n ∧
     0 ∈ keys (child_nodes n) ∧ 0 ∈ untried_actions n ∧
     ¬ NoDup (keys (child_nodes n) ++ untried_actions n)) ∧
  (∃ w' c1 c2,
     think_counted (board:=Stutter.board) counting tenths 20 false (25 # 100)
       (World [] 0 0) = Ret ((0, 2), w') ∧
     heap w' !! 1 = Some c1 ∧ heap w' !! 2 = Some c2 ∧
     parent c1 = Some 0 ∧ parent c2 = Some 0 ∧
     parent_action c1 = Some 0 ∧ parent_action c2 = Some 0).
Proof.
  split.
  - eexists _, _. split; [vm_compute; reflexivity|]. split; [reflexivity|].
    simpl. split; [by apply list_elem_of_singleton|].
    split; [by apply list_elem_of_singleton|].
    intros [Hin _]%NoDup_cons. apply Hin. by apply list_elem_of_singleton.
  - eexists _, _, _. split; [vm_compute; reflexivity|]. by repeat split.
Qed.

Lemma think_zero_budget_raises_witness :
  (tenths 0 <= tenths 1)%Q ∧
  think counting tenths 1 initial 0%Q fresh = Raise ValueError.
Proof.
  assert (tenths 0 <= tenths 1)%Q as Hclk by (unfold tenths, Qle; simpl; lia).
  split; [exact Hclk|].
  exact (think_zero_budget_raises (board:=board) counting tenths 0 initial fresh Hclk).
Defined.

(** Two calls of [think] on the same state with the same clock, which
    differ in the random draws of [expand_leaf] only.  Both end with the
    children for cells 7 and 8 at one visit and no win each; the first
    returns 7 and the second 8, the key inserted first, which is not the
    lowest.  The selection of [traverse_nodes] on the two trees moves to
    node 1 in both, the child for cell 7 in one and for cell 8 in the
    other. *)
Lemma seven_first_best_child :
  best_child (root_of [(7, 1); (8, 2)] 2 2) two_left 2 seven_first
  = Ret (1, seven_first).
Proof.
  unfold best_child, py_max.
  change (values (child_nodes (root_of [(7, 1); (8, 2)] 2 2))) with [1; 2].
  lazy beta iota.
  rewrite (bind_ret_l _ _ _ _ _
             (exact_ucb_visited 1 _ seven_first (leaf 7 8 1) 0
                (root_of [(7, 1); (8, 2)] 2 2) eq_refl (Nat.neq_succ_0 0) eq_refl
                eq_refl (Nat.neq_succ_0 1))).
  cbn [max_loop].
  rewrite (bind_ret_l _ _ _ _ _
             (exact_ucb_visited 2 _ seven_first (leaf 8 7 1) 0
                (root_of [(7, 1); (8, 2)] 2 2) eq_refl (Nat.neq_succ_0 0) eq_refl
                eq_refl (Nat.neq_succ_0 1))).
  simpl. by rewrite bool_decide_eq_false_2 by apply Rlt_irrefl.
Qed.

Lemma eight_first_best_child :
  best_child (root_of [(8, 1); (7, 2)] 2 2) two_left 2 eight_first
  = Ret (1, eight_first).
Proof.
  unfold best_child, py_max.
  change (values (child_nodes (root_of [(8, 1); (7, 2)] 2 2))) with [1; 2].
  lazy beta iota.
  rewrite (bind_ret_l _ _ _ _ _
             (exact_ucb_visited 1 _ eight_first (leaf 8 7 1) 0
                (root_of [(8, 1); (7, 2)] 2 2) eq_refl (Nat.neq_succ_0 0) eq_refl
                eq_refl (Nat.neq_succ_0 1))).
  cbn [max_loop].
  rewrite (bind_ret_l _ _ _ _ _
             (exact_ucb_visited 2 _ eight_first (leaf 7 8 1) 0
                (root_of [(8, 1); (7, 2)] 2 2) eq_refl (Nat.neq_succ_0 0) eq_refl
                eq_refl (Nat.neq_succ_0 1))).
  simpl. by rewrite bool_decide_eq_false_2 by apply Rlt_irrefl.
Qed.

(** In binary64 the scores of the two children of [rounded_tie] are the
    same double, 0.6471415866546981, and [max] keeps the first child. *)
Lemma rounded_tie_keeps_first :
  ucb (scores:=binary64_scores (λ _, log_3800)) 1 false rounded_tie
    = Ret (0x1.4b56245d20804p-1%float, rounded_tie) ∧
  ucb (scores:=binary64_scores (λ _, log_3800)) 2 false rounded_tie
    = Ret (0x1.4b56245d20804p-1%float, rounded_tie) ∧
  best_child (scores:=binary64_scores (λ _, log_3800))
    (mkNode None None [(7, 1); (8, 2)] [] 1900 3800) two_left 2 rounded_tie
    = Ret (1, rounded_tie).
Proof. repeat split; vm_compute; reflexivity. Qed.

Lemma tie_break_follows_dict_order :
  think_counted counting tenths 20 two_left (25 # 100) fresh
    = Ret ((7, 2), seven_first) ∧
  think_counted always_one tenths 20 two_left (25 # 100) fresh
    = Ret ((8, 2), eight_first) ∧
  best_child (root_of [(7, 1); (8, 2)] 2 2) two_left 2 seven_first
    = Ret (1, seven_first) ∧
  parent_action <$> heap seven_first !! 1 = Some (Some 7) ∧
  best_child (root_of [(8, 1); (7, 2)] 2 2) two_left 2 eight_first
    = Ret (1, eight_first) ∧
  parent_action <$> heap eight_first !! 1 = Some (Some 8).
Proof.
  split; [vm_compute; reflexivity|]. split; [vm_compute; reflexivity|].
  split; [|split; [reflexivity|split; [|reflexivity]]].
  - exact seven_first_best_child.
  - exact eight_first_best_child.
Qed.

Lemma ties_go_to_first_in_dict_order_witness :
  get_best_action 0 seven_first = Ret (7, seven_first) ∧
  (∃ n child,
     heap seven_first !! 0 = Some n ∧
     first_max nat_gt visits_key seven_first (child_nodes n) (7, child)) ∧
  best_child (root_of [(7, 1); (8, 2)] 2 2) two_left 2 seven_first
    = Ret (1, seven_first) ∧
  first_max score_gt (λ c, ucb c (negb (current_player two_left =? 2)%Z))
    seven_first (values (child_nodes (root_of [(7, 1); (8, 2)] 2 2))) 1.
Proof.
  split; [reflexivity|]. split.
  - apply (proj1 (ties_go_to_first_in_dict_order (board:=board)) 0
             seven_first 7 seven_first).
    reflexivity.
  - split; [exact seven_first_best_child|].
    apply (proj2 (ties_go_to_first_in_dict_order (board:=board)
                    (scores:=exact_scores))
             (root_of [(7, 1); (8, 2)] 2 2) two_left 2%Z seven_first 1 seven_first).
    + apply weak_order_restrict, score_gt_order.
    + exact seven_first_best_child.
Defined.

Lemma is_win_fails_fast_witness :
  points_values initial = None ∧
  is_win initial 1 fresh = Raise AssertionError ∧
  is_win drawn 1 fresh = Ret (false, fresh).
Proof.
  split; [reflexivity|]. split.
  - apply (proj1 (is_win_fails_fast (board:=board) initial 1 fresh)). reflexivity.
  - destruct (proj2 (is_win_fails_fast (board:=board) drawn 1 fresh)
                {[ 1%Z := (1 # 2)%Q; 2%Z := (1 # 2)%Q ]} (1 # 2)%Q)
      as (_ & _ & H); [vm_compute; reflexivity..|].
    apply H. reflexivity.
Defined.

(** ** The contract of the board, for tic-tac-toe *)

Lemma tictactoe_not_full (c : list (option Z)) :
  full c = false → ∃ i, c !! i = Some None.
Proof.
  induction c as [|x c IH]; simpl; [done|]. destruct x as [z|].
  - intros H. destruct (IH H) as [i Hi]. by exists (S i).
  - intros _. by exists 0.
Qed.

Lemma tictactoe_legal_nonempty (s : position) :
  is_ended s = false → legal_actions s ≠ [].
Proof.
  simpl. unfold over. intros H.
  apply orb_false_elim in H as [_ H]. apply tictactoe_not_full in H as [i Hi].
  assert (i ∈ empty_cells (cells s)) as Hin.
  { apply list_elem_of_filter. split; [done|]. apply elem_of_seq.
    apply lookup_lt_Some in Hi. lia. }
  intros Heq. rewrite Heq in Hin. by apply elem_of_nil in Hin.
Qed.

Lemma tictactoe_scored (s : position) :
  is_ended s = true →
  ∃ outcome v, points_values s = Some outcome ∧ outcome !! 1%Z = Some v.
Proof.
  simpl. unfold over, score_of. intros H.
  destruct (has_line 1 (cells s)); [by eexists _, 1%Q|].
  destruct (has_line 2 (cells s)); [by eexists _, 0%Q|].
  destruct (full (cells s)); [by eexists _, (1 # 2)%Q|done].
Qed.

Lemma tictactoe_fill (c : list (option Z)) a p :
  c !! a = Some None →
  S (length (filter (λ x, x = None) (<[a := Some p]> c)))
  = length (filter (λ x, x = None) c).
Proof.
  revert a. induction c as [|x c IH]; intros a H; [done|].
  destruct a as [|a]; simpl in *.
  - injection H as ->. by rewrite filter_cons_False, filter_cons_True.
  - rewrite !filter_cons. destruct (decide (x = None)); simpl; by rewrite <-(IH a H).
Qed.

Lemma tictactoe_game_shrinks (s : position) a :
  is_ended s = false → a ∈ legal_actions s →
  empties (next_state s a) < empties s.
Proof.
  intros _ Hin. simpl in *. apply list_elem_of_filter in Hin as [Hin _].
  unfold empties. simpl. rewrite <-(tictactoe_fill _ a (to_move s) Hin). lia.
Qed.

(** ** Runs for the further properties *)

Lemma traverse_nodes_stops_witness :
  traverse_nodes 2 0 two_left 2 one_unvisited
    = Ret ((2, play two_left 8), one_unvisited) ∧
  one_unvisited = one_unvisited ∧
  ∃ n, heap one_unvisited !! 2 = Some n ∧
       (is_ended (play two_left 8) = true ∨ untried_actions n ≠ [] ∨
        child_nodes n = []).
Proof.
  split; [exact one_unvisited_descent|].
  apply (traverse_nodes_stops (board:=board) 2 0 two_left 2%Z one_unvisited
           2 (play two_left 8) one_unvisited).
  exact one_unvisited_descent.
Defined.

Lemma heuristic_action_choice_legal_witness :
  ∃ a w', heuristic_action_choice counting initial (legal_actions initial) fresh
          = Ret (a, w') ∧ a ∈ legal_actions initial.
Proof.
  destruct (proj2 (proj2 (heuristic_action_choice_legal (board:=board) counting initial))
              (@legal_actions board initial) fresh) as (a & w' & H);
    [discriminate|].
  exists a, w'. split; [exact H|].
  exact (proj1 (heuristic_action_choice_legal (board:=board) counting initial) _ _ _ _ H).
Defined.

Lemma rollout_ends_game_witness :
  rollout counting 10 x_to_win fresh = Ret (x_won, fresh) ∧
  is_ended x_won = true ∧ reaches x_to_win x_won ∧
  heap fresh = heap fresh ∧ clk_pos fresh = clk_pos fresh.
Proof.
  split; [vm_compute; reflexivity|].
  apply (proj1 (rollout_ends_game (board:=board) counting) 10 x_to_win fresh x_won fresh).
  vm_compute. reflexivity.
Defined.

Lemma expand_leaf_edge_witness :
  expand_leaf counting 0 two_left one_unvisited = Raise IndexError ∧
  ∃ action rest,
    [5; 6; 7; 8] !! (counting 3 `mod` 4) = Some action ∧
    list_remove action [5; 6; 7; 8] = Some rest ∧
    expand_leaf counting 1 (play x_to_win 2) three_turns
    = Ret ((4, next_state (play x_to_win 2) action),
           World (expanded (heap three_turns) 1
                    (@mkNode board (Some 0) (Some 2) [] [5; 6; 7; 8] 1 1) action rest
                    (next_state (play x_to_win 2) action)) 4 5).
Proof.
  split.
  - apply (proj1 (expand_leaf_edge (board:=board) counting) 0 two_left one_unvisited
             (root_of [(7, 1); (8, 2)] 1 1)); reflexivity.
  - apply (proj2 (expand_leaf_edge (board:=board) counting) 1 (play x_to_win 2)
             three_turns (@mkNode board (Some 0) (Some 2) [] [5; 6; 7; 8] 1 1));
      [reflexivity|discriminate].
Defined.

Lemma chain3_parent_chain : parent_chain (heap chain3) 2 [2; 1; 0].
Proof.
  apply (chain_step _ 2 chain_grandchild 1); [reflexivity..|].
  apply (chain_step _ 1 chain_child 0); [reflexivity..|].
  econstructor 1; reflexivity.
Defined.

Lemma backpropagate_win_then_loss_witness :
  parent_chain (heap chain3) 2 [2; 1; 0] ∧
  ∃ w1 w2,
    backpropagate 3 (Some 2) true chain3 = Ret (tt, w1) ∧
    backpropagate 3 (Some 2) (negb true) w1 = Ret (tt, w2) ∧
    (∀ j n, j ∈ [2; 1; 0] → heap chain3 !! j = Some n →
       ∃ n', heap w2 !! j = Some n' ∧
         visits n' = visits n + 2 ∧ wins n' = wins n + 1 ∧ shape n' = shape n) ∧
    (∀ j, j ∉ [2; 1; 0] → heap w2 !! j = heap chain3 !! j).
Proof.
  split; [exact chain3_parent_chain|].
  apply (backpropagate_win_then_loss (board:=board) 2 [2; 1; 0] true 3 chain3
           chain3_parent_chain).
  simpl. lia.
Defined.

Lemma backpropagate_returns_iff_chain_finite_witness :
  ∃ fuel w', backpropagate fuel (Some 2) true chain3 = Ret (tt, w').
Proof.
  apply (proj2 (backpropagate_returns_iff_chain_finite (board:=board) 2 true chain3)).
  exists [2; 1; 0]. exact chain3_parent_chain.
Defined.

Lemma think_keeps_statistics_witness :
  think_counted counting tenths 20 x_to_win (35 # 100) fresh
    = Ret ((2, 3), three_turns) ∧
  stats_ok (length (heap fresh)) (heap three_turns).
Proof.
  split; [vm_compute; reflexivity|].
  apply (think_keeps_statistics (board:=board) counting tenths 20 x_to_win (35 # 100)
           fresh 2 3 three_turns).
  vm_compute. reflexivity.
Defined.

Lemma think_allocates_one_node_per_turn_witness :
  think_counted counting tenths 20 two_left (25 # 100) fresh
    = Ret ((7, 2), seven_first) ∧
  S (length (heap fresh)) ≤ length (heap seven_first) ≤ S (length (heap fresh)) + 2 ∧
  ∀ i, i < length (heap fresh) → heap seven_first !! i = heap fresh !! i.
Proof.
  split; [vm_compute; reflexivity|].
  apply (think_allocates_one_node_per_turn (board:=board) counting tenths 20 two_left
           (25 # 100) fresh 7 2 seven_first).
  vm_compute. reflexivity.
Defined.

Lemma think_game_over_returns_nothing_witness :
  is_ended x_won = true ∧
  think counting tenths 20 x_won (35 # 100) fresh = Raise ValueError ∧
  ∀ r, think counting tenths 20 x_won (35 # 100) fresh ≠ Ret r.
Proof.
  split; [reflexivity|]. split; [vm_compute; reflexivity|].
  apply (think_game_over_returns_nothing (board:=board) counting tenths 20 x_won
           (35 # 100) fresh).
  reflexivity.
Defined.

(** On the binary64 clock.  With a budget of half a second the first
    test, [0.1 - 0.0 < 0.5], holds and the turn raises [IndexError];
    with readings [2^-70] and 1.0 and a budget of one second the
    difference rounds to 1.0, the test [1.0 < 1.0] fails, no turn
    starts and [max()] raises [ValueError]. *)
Lemma think_no_legal_action_raises_witness :
  think (board:=Deadlock.board) (clock:=binary64_clock) counting tenths64 1 tt
    0.5%float (World [] 0 0) = Raise IndexError ∧
  think (board:=Deadlock.board) (clock:=binary64_clock) counting late_start 1 tt
    1%float (World [] 0 0) = Raise ValueError.
Proof.
  split.
  - exact (think_no_legal_action_raises (board:=Deadlock.board)
             (clock:=binary64_clock) counting tenths64 0 tt 0.5%float (World [] 0 0)
             eq_refl eq_refl).
  - exact (think_no_legal_action_raises (board:=Deadlock.board)
             (clock:=binary64_clock) counting late_start 0 tt 1%float (World [] 0 0)
             eq_refl eq_refl).
Defined.

(** On the binary64 clock the tests [0.1 - 0.0 < 0.25] and
    [0.2 - 0.0 < 0.25] hold and [0.30000000000000004 - 0.0 < 0.25]
    fails: two turns. *)
Lemma tenths64_runs_for_two :
  runs_for (H:=binary64_clock) tenths64 1 (tenths64 0) 0.25%float 2.
Proof.
  split.
  - intros j Hj. destruct j as [|[|j]]; [reflexivity..|lia].
  - reflexivity.
Defined.

Lemma think_returns_legal_action_witness :
  ∃ action w',
    think_counted (clock:=binary64_clock) counting tenths64 20 x_to_win
      0.25%float fresh = Ret ((action, 2), w') ∧
    action ∈ legal_actions x_to_win.
Proof.
  apply (think_returns_legal_action (board:=board) (clock:=binary64_clock)
           counting tenths64 x_to_win empties
           tictactoe_legal_actions_NoDup tictactoe_legal_nonempty
           tictactoe_scored tictactoe_game_shrinks exact_sqrt_log_defined
           20 0.25%float fresh 2).
  - reflexivity.
  - exact tenths64_runs_for_two.
  - lia.
  - lia.
  - vm_compute. lia.
Defined.

Lemma think_children_visits_add_up_witness :
  think_counted counting tenths 20 x_to_win (35 # 100) fresh
    = Ret ((2, 3), three_turns) ∧
  ∃ rn, heap three_turns !! length (heap fresh) = Some rn ∧
        children_visits (heap three_turns) rn = visits rn ∧ visits rn = 3.
Proof.
  split; [vm_compute; reflexivity|].
  apply (think_children_visits_add_up (board:=board) counting tenths x_to_win
           tictactoe_legal_actions_NoDup eq_refl 20 (35 # 100) fresh 2 3 three_turns).
  vm_compute. reflexivity.
Defined.
